(** * MastodonTagFinder: the field extractor, the dedup cache and the tag router

    A shallow embedding of [MastodonTagFinder.py].  Python [bytes] values are
    lists of bytes, Python integers are [Z], the module-level dictionaries
    are finite maps, and the body of [process_update] is a function from the
    module state to the state it leaves behind together with the way the
    call ended. *)

From Stdlib Require Import ZArith Lia Strings.Byte Strings.String Strings.Ascii.
From stdpp Require Import base decidable countable list gmap sets sorting.

#[local] Open Scope Z_scope.
#[local] Set Warnings "-clear-no-such-hyp".

(** * The program *)

(** ** Bytes *)

Abbreviation bytes := (list byte).

#[global] Instance byte_eq_dec : EqDecision byte := Byte.byte_eq_dec.

#[global] Program Instance byte_countable : Countable byte :=
  inj_countable Byte.to_N Byte.of_N _.
Next Obligation. intros b. apply Byte.of_to_N. Qed.

(** Byte literals are written as Rocq strings in which the apostrophe stands
    for the double-quote byte 0x22: [b"'uri':"] is the Python literal
    [b"\"uri\":"]. *)
Definition dquote : byte := x22.

Definition b (s : string) : bytes :=
  List.map (fun c => if decide (c = x27) then dquote else c) (list_byte_of_string s).

(** [len(data)] *)
Definition len {A} (data : list A) : Z := Z.of_nat (length data).

(** ** Python index conventions

    [bytes.find(sub, start, end)] and slicing read [start] and [end] as slice
    indices: a negative index counts from the end of the buffer and is
    clipped at 0, an [end] beyond the buffer is clipped at its length. *)

Definition adjust_start (n i : Z) : Z :=
  if i <? 0 then Z.max 0 (i + n) else i.

Definition adjust_end (n i : Z) : Z :=
  if n <? i then n else if i <? 0 then Z.max 0 (i + n) else i.

(** [sub] is a prefix of [l] *)
Fixpoint starts_with (sub l : bytes) : bool :=
  match sub, l with
  | [], _ => true
  | _ :: _, [] => false
  | x :: sub', y :: l' => if decide (x = y) then starts_with sub' l' else false
  end.

(** Scan [n] candidate positions, the first of them being [i], where [l] is
    the buffer from position [i] on. *)
Fixpoint find_from (sub l : bytes) (i : Z) (n : nat) {struct n} : Z :=
  match n with
  | O => -1
  | S n' =>
      if starts_with sub l then i
      else match l with
           | [] => -1
           | _ :: l' => find_from sub l' (i + 1) n'
           end
  end.

(** [data.find(sub, start, end)]; [end_ = None] is the omitted argument. *)
Definition find (data sub : bytes) (start : Z) (end_ : option Z) : Z :=
  let n := len data in
  let e := match end_ with None => n | Some e => adjust_end n e end in
  let s := adjust_start n start in
  if e - s <? len sub then -1
  else find_from sub (drop (Z.to_nat s) data) s (Z.to_nat (e - s - len sub + 1)).

(** [data[lo:hi]] *)
Definition slice (data : bytes) (lo hi : Z) : bytes :=
  let n := len data in
  let l := Z.min n (adjust_start n lo) in
  let h := adjust_end n hi in
  take (Z.to_nat (h - l)) (drop (Z.to_nat l) data).

(** [data[lo:]] *)
Definition slice_from (data : bytes) (lo : Z) : bytes :=
  drop (Z.to_nat (Z.min (len data) (adjust_start (len data) lo))) data.

(** ** The field extractor *)

Definition uri_label : bytes := Eval vm_compute in b "'uri':".

Definition name_label : bytes := Eval vm_compute in b "'name':".

Definition tags_label : bytes := Eval vm_compute in b "'tags':".

(** [getfield(data, field, offset)]: [None] is the pair [(None, None)]. *)
Definition getfield (data field : bytes) (offset : Z) : option (bytes * Z) :=
  let field_start := find data field offset None in
  if decide (field_start = -1) then None
  else if decide (find data (b "null") (field_start + len field)
                       (Some (field_start + len field + 4)) ≠ -1) then None
  else
    let value_start := find data [dquote] (field_start + len field) None in
    if decide (value_start = -1) then None
    else
      let value_end := find data [dquote] (value_start + 1) None in
      if decide (value_end = -1) then None
      else Some (slice data (value_start + 1) value_end, value_end + 1).

(** The [while True] loop of [getlist].  [Some items] is the list returned
    after the [break]; [None] means that [fuel] iterations did not reach the
    [break]. *)
Fixpoint getlist_loop (fuel : nat) (data : bytes) (list_end ptr : Z)
    (items : list (option bytes)) : option (list (option bytes)) :=
  match fuel with
  | O => None
  | S fuel' =>
      let entry_start := find data (b "{") ptr (Some list_end) in
      if decide (entry_start = -1) then Some items
      else
        let ptr := entry_start + 1 in
        let entry_end := find data (b "}") ptr (Some list_end) in
        let ptr := entry_end + 1 in
        let tagname := fst <$> getfield (slice data entry_start entry_end) name_label 0 in
        getlist_loop fuel' data list_end ptr (items ++ [tagname])
  end.

(** [getlist(data, field)] *)
Definition getlist (fuel : nat) (data field : bytes) : option (list (option bytes)) :=
  let field_start := find data field 0 None in
  if decide (field_start = -1) then Some []
  else
    let empty := find data (b "[]") (field_start + len field)
                      (Some (field_start + len field + 3)) in
    if decide (empty ≠ -1) then Some []
    else
      let list_start := find data (b "[") (field_start + len field) None in
      let list_end := find data (b "]") (list_start + 1) None in
      getlist_loop fuel data list_end (list_start + 1) [].

(** ** Text and exceptions *)

(** [bytes.decode()] and [str.lower()] are Python built-ins: the codec and
    the case mapping are an interface here.  [decode] returns [None] where
    Python raises [UnicodeDecodeError]. *)
Class PyStr := {
  str : Type;
  str_eq_dec :: EqDecision str;
  str_countable :: Countable str;
  decode : bytes → option str;
  lower : str → str
}.

(** Exceptions raised by the modelled statements. *)
Inductive exn := KeyError | AttributeError | UnicodeDecodeError | ClientError.

(** How a call of [process_update] ends: it returns, it returns after the
    [except] branch has printed an exception, or it does not return because
    the loop of [getlist] never reaches its [break]. *)
Inductive outcome := Returned | Caught (e : exn) | Diverges.

(** ** User agents *)

Module UserConnection.
Section UserConnection.
Context `{PyStr}.

(** [self.tags] holds what [followed_tags] returned: a set or [None];
    [self.posts] is the unbounded queue, oldest element first. *)
Record t := Build {
  server : bytes;
  user_token : bytes;
  tags : option (gset str);
  posts : list bytes
}.

Definition put (self : t) (url : bytes) : t :=
  Build (server self) (user_token self) (tags self) (posts self ++ [url]).

Definition set_tags (self : t) (v : option (gset str)) : t :=
  Build (server self) (user_token self) v (posts self).

(** [queue_post(self, tags, url)]: the state of the agent afterwards and
    the exception raised, if any.  [None.intersection] raises
    [AttributeError]; the log line evaluates [url.decode()] before the
    [put]. *)
Definition queue_post (self : t) (post_tags : gset str) (url : bytes)
    : t * option exn :=
  match tags self with
  | None => (self, Some AttributeError)
  | Some own =>
      let intersection := own ∩ post_tags in
      if decide (0 < size intersection)%nat then
        match decode url with
        | None => (self, Some UnicodeDecodeError)
        | Some _ => (put self url, None)
        end
      else (self, None)
  end.

(** The answer of the followed-tags endpoint: the request fails, or the
    first line of the body is read. *)
Inductive response := RequestFails | FirstLine (chunk : bytes).

(** The [while True] loop of [followed_tags]; [None]: out of fuel. *)
Fixpoint followed_tags_loop (fuel : nat) (chunk : bytes) (offset : Z)
    (acc : gset str) : option (gset str + exn) :=
  match fuel with
  | O => None
  | S fuel' =>
      match getfield chunk name_label offset with
      | Some (next_tag, offset') =>
          match decode next_tag with
          | None => Some (inr UnicodeDecodeError)
          | Some s => followed_tags_loop fuel' chunk offset' ({[lower s]} ∪ acc)
          end
      | None => Some (inl acc)
      end
  end.

(** [followed_tags(self)]: the value returned ([None] or a set) or the
    exception raised. *)
Definition followed_tags (fuel : nat) (r : response)
    : option (option (gset str) + exn) :=
  match r with
  | RequestFails => Some (inr ClientError)
  | FirstLine chunk =>
      if decide (len chunk = 0) then Some (inl None)
      else match followed_tags_loop fuel chunk 0 ∅ with
           | Some (inl s) => Some (inl (Some s))
           | Some (inr e) => Some (inr e)
           | None => None
           end
  end.

(** One round of the loop of [update_tags], after the sleep:
    [self.tags = await self.followed_tags()].  An exception leaves the
    loop, and with it the task. *)
Definition update_tags_round (fuel : nat) (r : response) (self : t)
    : option (t * option exn) :=
  match followed_tags fuel r with
  | Some (inl v) => Some (set_tags self v, None)
  | Some (inr e) => Some (self, Some e)
  | None => None
  end.

End UserConnection.
End UserConnection.

(** ** The ingest pipeline *)

Definition DUPLICATE_HISTORY_LENGTH : Z := 1000.

Section Pipeline.
Context `{PyStr}.

(** The module-level variables.  A value of [posts] is the two-element
    list [[url, []]]. *)
Record State := {
  post_count : Z;
  servers : gmap bytes Z;
  total : Z;
  posts : gmap bytes (bytes * list bytes);
  posts_order : list bytes;
  users : list UserConnection.t
}.

(** [while len(posts_order) > DUPLICATE_HISTORY_LENGTH:
       del posts[posts_order.pop(0)]] *)
Fixpoint evict (order : list bytes) (cache : gmap bytes (bytes * list bytes))
    : list bytes * gmap bytes (bytes * list bytes) * option exn :=
  match order with
  | [] => (order, cache, None)
  | k :: rest =>
      if decide (DUPLICATE_HISTORY_LENGTH < len order) then
        match cache !! k with
        | None => (rest, cache, Some KeyError)
        | Some _ => evict rest (delete k cache)
        end
      else (order, cache, None)
  end.

(** [l.split(sep)[0]] *)
Fixpoint split_head (sep : byte) (l : bytes) : bytes :=
  match l with
  | [] => []
  | c :: l' => if decide (c = sep) then [] else c :: split_head sep l'
  end.

(** [servers[server] += 1] for a known server, [servers[server] = 1]
    otherwise. *)
Definition count_server (server : bytes) (m : gmap bytes Z) : gmap bytes Z :=
  match m !! server with
  | Some n => <[server := n + 1]> m
  | None => <[server := 1]> m
  end.

(** [[t.decode().lower() for t in items]]: an item [None] has no
    [decode]. *)
Fixpoint decode_tags (items : list (option bytes)) : list str + exn :=
  match items with
  | [] => inl []
  | None :: _ => inr AttributeError
  | Some t :: rest =>
      match decode t with
      | None => inr UnicodeDecodeError
      | Some s =>
          match decode_tags rest with
          | inl l => inl (lower s :: l)
          | inr e => inr e
          end
      end
  end.

(** [for user in users: await user.queue_post(tags, url)]; an exception
    ends the loop. *)
Fixpoint route (post_tags : gset str) (url : bytes)
    (us : list UserConnection.t) : list UserConnection.t * option exn :=
  match us with
  | [] => ([], None)
  | u :: rest =>
      match UserConnection.queue_post u post_tags url with
      | (u', Some e) => (u' :: rest, Some e)
      | (u', None) =>
          let '(rest', r) := route post_tags url rest in (u' :: rest', r)
      end
  end.

Definition outcome_of (r : option exn) : outcome :=
  match r with None => Returned | Some e => Caught e end.

(** [process_update(data)].  The state is the one the call leaves behind,
    or, for [Diverges], the one in which [getlist] loops. *)
Definition process_update (fuel : nat) (data : bytes) (st : State)
    : State * outcome :=
  match getfield data uri_label 0 with
  | None => (st, Returned)
  | Some (url, _) =>
      if decide (is_Some (posts st !! url)) then (st, Returned)
      else
        let '(order, cache, r) :=
          evict (posts_order st ++ [url]) (<[url := (url, [])]> (posts st)) in
        let st1 := {| post_count := post_count st; servers := servers st;
                      total := total st; posts := cache;
                      posts_order := order; users := users st |} in
        match r with
        | Some e => (st1, Caught e)
        | None =>
            let server := split_head "/"%byte (slice_from url 8) in
            let st2 := {| post_count := post_count st + 1;
                          servers := count_server server (servers st);
                          total := total st + 1; posts := cache;
                          posts_order := order; users := users st |} in
            match getlist fuel data tags_label with
            | None => (st2, Diverges)
            | Some items =>
                match decode_tags items with
                | inr e => (st2, Caught e)
                | inl l =>
                    let post_tags : gset str := list_to_set l in
                    if decide (0 < size post_tags)%nat then
                      let '(us, r) := route post_tags url (users st) in
                      ({| post_count := post_count st2; servers := servers st2;
                          total := total st2; posts := cache;
                          posts_order := order; users := us |},
                       outcome_of r)
                    else (st2, Returned)
                end
            end
        end
  end.

(** The calls of [process_update] on the payloads [datas], one after the
    other; the flag is [false] when one of them did not return, and the
    later ones are then never made. *)
Fixpoint process_updates (fuel : nat) (datas : list bytes) (st : State)
    : State * bool :=
  match datas with
  | [] => (st, true)
  | data :: rest =>
      match process_update fuel data st with
      | (st', Diverges) => (st', false)
      | (st', _) => process_updates fuel rest st'
      end
  end.

(** The state at start-up, once the users are registered. *)
Definition initial (us : list UserConnection.t) : State :=
  {| post_count := 0; servers := ∅; total := 0; posts := ∅;
     posts_order := []; users := us |}.

End Pipeline.

(** ** The stream worker *)

Definition update_event : bytes := b "event: update" ++ [x0a].
Definition data_prefix : bytes := b "data:".

(** How the inner loop of [server_stream] stands after the chunks read so
    far: the stream ended with an empty chunk, the loop waits for the next
    chunk, or it hangs in a call of [process_update]. *)
Inductive stream_state := Closed | Reading | Hung.

Section Stream.
Context `{PyStr}.

(** One round of the inner loop of [server_stream] for a chunk that is not
    empty: the flag [get_next], the state and the way the round ended. *)
Definition on_chunk (fuel : nat) (chunk : bytes) (get_next : bool) (st : State)
    : bool * State * outcome :=
  let get_next := if decide (chunk = update_event) then true else get_next in
  if decide (slice chunk 0 5 = data_prefix) then
    if get_next then
      let '(st', o) := process_update fuel (slice_from chunk 5) st in
      (match o with Diverges => true | _ => false end, st', o)
    else (get_next, st, Returned)
  else (get_next, st, Returned).

(** The inner loop of [server_stream] over the chunks that [readline]
    returns, in order. *)
Fixpoint read_chunks (fuel : nat) (chunks : list bytes) (get_next : bool) (st : State)
    : bool * State * stream_state :=
  match chunks with
  | [] => (get_next, st, Reading)
  | chunk :: rest =>
      if decide (len chunk = 0) then (get_next, st, Closed)
      else
        match on_chunk fuel chunk get_next st with
        | (g, st', Diverges) => (g, st', Hung)
        | (g, st', _) => read_chunks fuel rest g st'
        end
  end.

(** One connection of [server_stream]: [get_next] starts as [False]. *)
Definition server_stream (fuel : nat) (chunks : list bytes) (st : State)
    : bool * State * stream_state :=
  read_chunks fuel chunks false st.
End Stream.

(** ** The statistics report *)

(** [x <= y] on [bytes]: the order of the first byte that differs, a proper
    prefix being smaller. *)
Fixpoint bytes_leb (x y : bytes) : bool :=
  match x, y with
  | [], _ => true
  | _ :: _, [] => false
  | c :: x', d :: y' =>
      if (Byte.to_N c <? Byte.to_N d)%N then true
      else if (Byte.to_N c =? Byte.to_N d)%N then bytes_leb x' y'
      else false
  end.

(** [p <= q] on the tuples [(count, server)]. *)
Definition tuple_le (p q : Z * bytes) : Prop :=
  p.1 < q.1 ∨ (p.1 = q.1 ∧ bytes_leb p.2 q.2 = true).

#[global] Instance tuple_le_dec p q : Decision (tuple_le p q).
Proof. unfold tuple_le. apply _. Defined.

(** [server_list] after [sort()] and [reverse()]. *)
Definition server_list (m : gmap bytes Z) : list (Z * bytes) :=
  reverse (merge_sort tuple_le ((λ kv, (kv.2, kv.1)) <$> map_to_list m)).

Section Report.
Context `{PyStr}.

(** The [for] loop of [top_servers]: the rows printed, and the exception of
    [server.decode()] that ends it. *)
Fixpoint print_rows (rows : list (Z * bytes)) : list (str * Z) * option exn :=
  match rows with
  | [] => ([], None)
  | (count, server) :: rest =>
      match decode server with
      | None => ([], Some UnicodeDecodeError)
      | Some s => let '(printed, r) := print_rows rest in ((s, count) :: printed, r)
      end
  end.

(** [top_servers()]: the state afterwards, the post count and the rows
    printed, and the exception raised, if any. *)
Definition top_servers (st : State) : State * (Z * list (str * Z)) * option exn :=
  let '(printed, r) := print_rows (take 10 (server_list (servers st))) in
  match r with
  | Some e => (st, (post_count st, printed), Some e)
  | None =>
      ({| post_count := 0; servers := ∅; total := total st; posts := posts st;
          posts_order := posts_order st; users := users st |},
       (post_count st, printed), None)
  end.
End Report.

(** ** The sender *)

Section Sender.
Context `{PyStr}.

(** One round of the loop of [send_posts]: [None] while the queue is empty
    and [get()] waits; otherwise the agent without the id taken from the
    queue, and the text handed to [search] or the exception of
    [post_url.decode()], which ends the task. *)
Definition send_next (self : UserConnection.t)
    : option (UserConnection.t * (str + exn)) :=
  match UserConnection.posts self with
  | [] => None
  | post_url :: rest =>
      Some (UserConnection.Build (UserConnection.server self)
              (UserConnection.user_token self) (UserConnection.tags self) rest,
            match decode post_url with
            | Some s => inl s
            | None => inr UnicodeDecodeError
            end)
  end.
End Sender.

(** * The vocabulary of the properties *)

(** ** Occurrences *)

(** [occurs data sub i]: the bytes of [sub] stand in [data] from index [i]. *)
Definition occurs (data sub : bytes) (i : Z) : Prop :=
  starts_with sub (drop (Z.to_nat i) data) = true.

(** What [find] answers for the adjusted window from [s] to [e]: [-1] when
    [sub] does not occur in it, the least index of an occurrence otherwise. *)
Inductive find_result (data sub : bytes) (s e : Z) : Z → Prop :=
  | find_absent :
      (∀ i, s ≤ i ≤ e - len sub → ¬ occurs data sub i) →
      find_result data sub s e (-1)
  | find_first r :
      0 ≤ s → s ≤ r ≤ e - len sub → e ≤ len data →
      occurs data sub r →
      (∀ i, s ≤ i < r → ¬ occurs data sub i) →
      find_result data sub s e r.

(** The vocabulary of the specification: [first_occ data sub s r] says that
    the first occurrence of [sub] in [data] at or after index [s] is at [r];
    [no_occ data sub s] that there is none. *)
Definition no_occ (data sub : bytes) (s : Z) : Prop :=
  ∀ i, s ≤ i ≤ len data - len sub → ¬ occurs data sub i.

Definition first_occ (data sub : bytes) (s r : Z) : Prop :=
  s ≤ r ≤ len data - len sub ∧ occurs data sub r ∧
  ∀ i, s ≤ i < r → ¬ occurs data sub i.

(** ** The specification of [getfield] *)

(** The result of [getfield], case by case, in the words of the
    specification: [s] is the index the scan starts from. *)
Inductive getfield_spec (data field : bytes) (s : Z) : option (bytes * Z) → Prop :=
  | field_absent :
      no_occ data field s →
      getfield_spec data field s None
  | field_null fs :
      first_occ data field s fs →
      occurs data (b "null") (fs + len field) →
      getfield_spec data field s None
  | field_unquoted fs :
      first_occ data field s fs →
      ¬ occurs data (b "null") (fs + len field) →
      no_occ data [dquote] (fs + len field) →
      getfield_spec data field s None
  | field_unclosed fs vs :
      first_occ data field s fs →
      ¬ occurs data (b "null") (fs + len field) →
      first_occ data [dquote] (fs + len field) vs →
      no_occ data [dquote] (vs + 1) →
      getfield_spec data field s None
  | field_value fs vs ve :
      first_occ data field s fs →
      ¬ occurs data (b "null") (fs + len field) →
      first_occ data [dquote] (fs + len field) vs →
      first_occ data [dquote] (vs + 1) ve →
      getfield_spec data field s (Some (slice data (vs + 1) ve, ve + 1)).

(** The claim as it is worded: [None] for an absent label and for a label
    followed by [null], a value and an offset in every other case. *)
Definition null_or_value (data field : bytes) (offset : Z) : Prop :=
  let s := adjust_start (len data) offset in
  let absent_or_null :=
    no_occ data field s ∨
    ∃ fs, first_occ data field s fs ∧ occurs data (b "null") (fs + len field) in
  (absent_or_null → getfield data field offset = None) ∧
  (¬ absent_or_null → ∃ v next, getfield data field offset = Some (v, next)).

(** ** The entries of a list *)

(** An entry whose closing brace is missing from the window: [find] answers
    [-1], the loop sets [ptr] to [0] and scans the same entries again. *)
Definition unterminated (data : bytes) (list_end e : Z) : Prop :=
  0 ≤ e ≤ adjust_end (len data) list_end - 1 ∧ occurs data (b "{") e ∧
  find data (b "}") (e + 1) (Some list_end) = -1.

(** An entry is a pair of indices: its opening and its closing brace. *)
Definition entry_name (data : bytes) (entry : Z * Z) : option bytes :=
  fst <$> getfield (slice data entry.1 entry.2) name_label 0.

(** [sub] does not occur in the window that starts at [p] and ends before
    [stop]. *)
Definition none_within (data sub : bytes) (p stop : Z) : Prop :=
  ∀ i, p ≤ i ≤ stop - len sub → ¬ occurs data sub i.

(** [r] is the first place of the window where [sub] occurs. *)
Definition first_within (data sub : bytes) (p stop r : Z) : Prop :=
  p ≤ r ≤ stop - len sub ∧ occurs data sub r ∧
  ∀ i, p ≤ i < r → ¬ occurs data sub i.

(** The entries of the window, read from [p] on: an entry runs from the
    first opening brace of the window to the first closing brace after it,
    and the next one is looked for after that closing brace. *)
Inductive window_entries (data : bytes) (stop : Z) : Z → list (Z * Z) → Prop :=
  | entries_nil p :
      none_within data (b "{") p stop → window_entries data stop p []
  | entries_cons p s e rest :
      first_within data (b "{") p stop s →
      first_within data (b "}") (s + 1) stop e →
      window_entries data stop (e + 1) rest →
      window_entries data stop p ((s, e) :: rest).

(** ** The cache and the calls *)

(** The last [DUPLICATE_HISTORY_LENGTH] elements of [l]. *)
Definition keep_last {A} (l : list A) : list A :=
  drop (length l - Z.to_nat DUPLICATE_HISTORY_LENGTH) l.

Section Vocabulary.
Context `{PyStr}.

(** The invariant of the cache: [posts] and [posts_order] hold the same
    ids, as many of them, at most [DUPLICATE_HISTORY_LENGTH]; no id
    stands twice in [posts_order]. *)
Record cache_inv (st : State) : Prop := {
  cache_dom : dom (posts st) = list_to_set (posts_order st);
  cache_size : size (posts st) = length (posts_order st);
  cache_bound : len (posts_order st) ≤ DUPLICATE_HISTORY_LENGTH;
  cache_nodup : NoDup (posts_order st)
}.

(** The state after the cache and the counters have been updated for the
    fresh id [url]. *)
Definition counted (st : State) (cache : gmap bytes (bytes * list bytes))
    (url : bytes) : State :=
  {| post_count := post_count st + 1;
     servers := count_server (split_head "/"%byte (slice_from url 8)) (servers st);
     total := total st + 1;
     posts := cache;
     posts_order := keep_last (posts_order st ++ [url]);
     users := users st |}.

Definition with_users (st : State) (us : list UserConnection.t) : State :=
  {| post_count := post_count st; servers := servers st; total := total st;
     posts := posts st; posts_order := posts_order st; users := us |}.

(** The rest of the call once the counters are updated. *)
Definition fan_out (fuel : nat) (data url : bytes) (st2 : State)
    : State * outcome :=
  match getlist fuel data tags_label with
  | None => (st2, Diverges)
  | Some items =>
      match decode_tags items with
      | inr e => (st2, Caught e)
      | inl l =>
          if decide (0 < size (list_to_set l : gset str))%nat then
            let '(us, r) := route (list_to_set l) url (users st2) in
            (with_users st2 us, outcome_of r)
          else (st2, Returned)
      end
  end.

(** The ids of the payloads, [None] where a payload has no [uri]. *)
Definition uris (datas : list bytes) : list (option bytes) :=
  (λ data, fst <$> getfield data uri_label 0) <$> datas.

(** What [queue_post] leaves of an agent that holds a tag set, for a
    post whose id decodes. *)
Definition deliver (post_tags : gset str) (url : bytes)
    (u : UserConnection.t) : UserConnection.t :=
  match UserConnection.tags u with
  | Some own =>
      if decide (0 < size (own ∩ post_tags))%nat then UserConnection.put u url else u
  | None => u
  end.

End Vocabulary.

(** ** Examples *)

(** On buffers of ASCII bytes [ascii_text] is Python's UTF-8 codec and
    [str.lower]; it rejects every other buffer.  The examples use ASCII
    buffers only. *)
Definition ascii_lower (c : byte) : byte :=
  let n := Byte.to_N c in
  if ((65 <=? n) && (n <=? 90))%N then default c (Byte.of_N (n + 32)) else c.

Definition ascii_decode (data : bytes) : option bytes :=
  if forallb (λ c, (Byte.to_N c <? 128)%N) data then Some data else None.

Definition ascii_text : PyStr :=
  {| str := bytes; decode := ascii_decode; lower := List.map ascii_lower |}.

(** Example buffers. *)
Definition unterminated_entry : bytes := b "{'uri':'https://a.b/1','tags':[{'name':'x']}".

Definition nameless_entry : bytes := b "{'uri':'https://a.b/1','tags':[{'url':'https://a.b/tags/x'}]}".

Definition number_valued : bytes := b "{'uri':5}".

Definition escaped_quote : bytes := b "{'uri':'https://a.b/\'1\''}".

Definition two_tags : bytes := b "{'uri':'https://a.b/1','tags':[{'name':'Foo'},{'name':'bar'}]}".

Definition tagged_b : bytes := b "{'uri':'https://a.b/1','tags':[{'name':'B'}]}".

Definition untagged : bytes := b "{'uri':'https://a.b/1','tags':[]}".

Definition agent (following : list bytes) : UserConnection.t (H := ascii_text) :=
  UserConnection.Build (H := ascii_text) (b "home.example") (b "token")
    (Some (list_to_set following)) [].

Definition three_agents : list (UserConnection.t (H := ascii_text)) :=
  [agent [b "a"]; agent [b "b"]; agent [b "a"; b "b"]].

(** The first agent after a round of [update_tags] that read an empty first
    line. *)
Definition lapsed_agent : UserConnection.t (H := ascii_text) :=
  UserConnection.set_tags (agent [b "a"]) None.

(** The payload of the post number [k], for [k < 10000]. *)
Definition digit (n : N) : byte := default "0"%byte (Byte.of_N (48 + n mod 10)).

Definition numbered_uri (k : nat) : bytes :=
  let n := N.of_nat k in
  b "https://a.b/" ++ [digit (n / 1000); digit (n / 100); digit (n / 10); digit n].

Definition numbered_payload (k : nat) : bytes :=
  b "{'uri':'" ++ numbered_uri k ++ b "'}".

(** A test for distinctness that computes. *)
Fixpoint distinct_from (seen : gmap bytes ()) (l : list bytes) : bool :=
  match l with
  | [] => true
  | x :: rest =>
      match seen !! x with
      | Some _ => false
      | None => distinct_from (<[x := ()]> seen) rest
      end
  end.

(** ** Rendered buffers *)

(** A buffer made of name fields: before each value [v] stand some bytes
    [pre] and the name label, after the last one stands [tail]. *)
Fixpoint name_fields (fields : list (bytes * bytes)) (tail : bytes) : bytes :=
  match fields with
  | [] => tail
  | (pre, v) :: rest =>
      pre ++ name_label ++ [dquote] ++ v ++ [dquote] ++ name_fields rest tail
  end.

(** [field] does not start inside [pre]. *)
Definition label_free (pre field : bytes) : Prop :=
  ∀ i, 0 ≤ i < len pre → ¬ occurs (pre ++ field) field i.

(** [(v, n)] moved [off] bytes to the right. *)
Definition shift (off : Z) (r : bytes * Z) : bytes * Z := (r.1, r.2 + off).

(** A payload whose second tag entry has no name. *)
Definition half_named : bytes :=
  b "{'uri':'https://a.b/1','tags':[{'name':'b'},{'url':'https://a.b/tags/c'}]}".

(** [label_free], computed. *)
Definition label_freeb (pre field : bytes) : bool :=
  forallb (λ i, negb (starts_with field (drop i (pre ++ field)))) (seq 0 (length pre)).

(** [x ∉ l], computed. *)
Definition lacks (x : byte) (l : bytes) : bool :=
  forallb (λ y, negb (bool_decide (x = y))) l.

(** ** Agents and counters *)

Section MoreVocabulary.
Context `{PyStr}.

(** What a call for a payload with the id [url] may do to an agent: nothing,
    or append the id to its queue. *)
Definition agent_step (url : option bytes) (u u' : UserConnection.t) : Prop :=
  UserConnection.server u' = UserConnection.server u ∧
  UserConnection.user_token u' = UserConnection.user_token u ∧
  UserConnection.tags u' = UserConnection.tags u ∧
  (UserConnection.posts u' = UserConnection.posts u ∨
   ∃ id, url = Some id ∧ UserConnection.posts u' = UserConnection.posts u ++ [id]).

(** The sum of the counts of [servers]. *)
Definition count_sum (m : gmap bytes Z) : Z := map_fold (λ _ c acc, c + acc) 0 m.

(** The invariant of the counters: [post_count] is the sum of the counts of
    [servers], every count is at least one, and [total] is at least
    [post_count]. *)
Record stats_inv (st : State) : Prop := {
  stats_sum : post_count st = count_sum (servers st);
  stats_pos : map_Forall (λ _ c, 1 ≤ c) (servers st);
  stats_total : post_count st ≤ total st
}.

(** The host part of an id: [url[8:].split(b"/")[0]]. *)
Definition server_of (url : bytes) : bytes := split_head "/"%byte (slice_from url 8).
End MoreVocabulary.

(** ** Runs of the program

    Between two suspension points the event loop runs one of these steps:
    a call of [process_update] by a stream worker, a report, a round of the
    tag refresher of the agent number [i] that gets the answer [r], or a
    round of its sender. *)
Section Runs.
Context `{PyStr}.

Inductive action :=
  | Ingest (fuel : nat) (data : bytes)
  | Report
  | Refresh (i : nat) (fuel : nat) (r : UserConnection.response)
  | Send (i : nat).

Definition refresh_agent (fuel : nat) (r : UserConnection.response)
    (u : UserConnection.t) : UserConnection.t :=
  match UserConnection.update_tags_round fuel r u with
  | Some (u', _) => u'
  | None => u
  end.

Definition send_agent (u : UserConnection.t) : UserConnection.t :=
  match send_next u with
  | Some (u', _) => u'
  | None => u
  end.

Definition act (st : State) (a : action) : State :=
  match a with
  | Ingest fuel data => (process_update fuel data st).1
  | Report => (top_servers st).1.1
  | Refresh i fuel r => with_users st (alter (refresh_agent fuel r) i (users st))
  | Send i => with_users st (alter send_agent i (users st))
  end.

Definition run (actions : list action) (st : State) : State :=
  foldl act st actions.

(** The rows of the report: the first ten tuples of [server_list]. *)
Definition report (m : gmap bytes Z) : list (Z * bytes) := take 10 (server_list m).

(** The number of update events among the chunks. *)
Definition update_events (chunks : list bytes) : nat :=
  length (filter (λ chunk, chunk = update_event) chunks).
End Runs.

(** ** Rendered tag lists *)

(** Bytes that hold no brace and no closing bracket. *)
Definition lbrace : byte := x7b.
Definition rbrace : byte := x7d.
Definition rbracket : byte := x5d.
Definition lbracket : byte := x5b.

Definition clean (l : bytes) : Prop :=
  (lbrace ∉ l) ∧ (rbrace ∉ l) ∧ (rbracket ∉ l).

(** An entry of a rendered list: the bytes [gap] before its opening brace,
    its name, and the bytes [extra] between the closing quote of the name
    and the closing brace. *)
Record tag_entry := TagEntry { gap : bytes; tag_name : bytes; extra : bytes }.

Definition entry_wf (e : tag_entry) : Prop :=
  clean (gap e) ∧ clean (tag_name e) ∧ (dquote ∉ tag_name e) ∧ clean (extra e).

Fixpoint render_entries (es : list tag_entry) : bytes :=
  match es with
  | [] => []
  | e :: rest =>
      gap e ++ b "{" ++ name_label ++ [dquote] ++ tag_name e ++ [dquote]
        ++ extra e ++ b "}" ++ render_entries rest
  end.

(** [clean] and [entry_wf], computed. *)
Definition cleanb (l : bytes) : bool :=
  (lacks lbrace l) && (lacks rbrace l) && (lacks rbracket l).

Definition entry_wfb (e : tag_entry) : bool :=
  cleanb (gap e) && cleanb (tag_name e) && lacks dquote (tag_name e) && cleanb (extra e).

(** * Lemmas *)

(** ** What [find] returns *)

Lemma starts_with_prefix sub l : starts_with sub l = true ↔ sub `prefix_of` l.
Proof.
  revert l. induction sub as [|x sub IH]; intros [|y l]; simpl.
  - split; [intros _; apply prefix_nil | done].
  - split; [intros _; apply prefix_nil | done].
  - split; [done | intros H; by apply prefix_nil_not in H].
  - case_decide as Hxy.
    + subst y. rewrite IH. split; [apply prefix_cons | apply prefix_cons_inv_2].
    + split; [done | intros H; by apply prefix_cons_inv_1 in H].
Qed.

Lemma adjust_start_nonneg n i : 0 ≤ n → 0 ≤ adjust_start n i.
Proof. unfold adjust_start. case_match; lia. Qed.

Lemma adjust_end_range n i : 0 ≤ n → 0 ≤ adjust_end n i ≤ n.
Proof. unfold adjust_end. repeat case_match; lia. Qed.

Lemma len_nonneg {A} (data : list A) : 0 ≤ len data.
Proof. unfold len. lia. Qed.

Lemma find_from_spec sub l i n :
  (find_from sub l i n = -1 ∧
   ∀ k, (k < n)%nat → starts_with sub (drop k l) = false) ∨
  (∃ k, (k < n)%nat ∧ find_from sub l i n = i + Z.of_nat k ∧
        starts_with sub (drop k l) = true ∧
        ∀ j, (j < k)%nat → starts_with sub (drop j l) = false).
Proof.
  revert l i. induction n as [|n IH]; intros l i; simpl.
  - left. split; [done | intros k Hk; lia].
  - destruct (starts_with sub l) eqn:Hl.
    + right. exists 0%nat. repeat split; [lia | lia | done | intros j Hj; lia].
    + destruct l as [|y l].
      * left. split; [done |]. intros k _. by rewrite drop_nil.
      * destruct (IH l (i + 1)) as [[Hr Hno] | (k & Hk & Hr & Hyes & Hno)].
        -- left. split; [done |]. intros [|k] Hk; [done |]. apply Hno. lia.
        -- right. exists (S k). repeat split; [lia | lia | done |].
           intros [|j] Hj; [done |]. apply Hno. lia.
Qed.

Lemma find_ok data sub start end_ :
  find_result data sub
    (adjust_start (len data) start)
    (match end_ with None => len data | Some e => adjust_end (len data) e end)
    (find data sub start end_).
Proof.
  unfold find.
  set (n := len data).
  set (e := match end_ with None => n | Some e => adjust_end n e end).
  set (s := adjust_start n start).
  assert (Hs : 0 ≤ s) by (apply adjust_start_nonneg, len_nonneg).
  assert (He : e ≤ n).
  { subst e. destruct end_; [apply adjust_end_range, len_nonneg | lia]. }
  destruct (Z.ltb_spec (e - s) (len sub)) as [Hlt | Hge].
  { apply find_absent. lia. }
  destruct (find_from_spec sub (drop (Z.to_nat s) data) s
              (Z.to_nat (e - s - len sub + 1)))
    as [[Hr Hno] | (k & Hk & Hr & Hyes & Hno)].
  - rewrite Hr. apply find_absent. intros i Hi. unfold occurs.
    specialize (Hno (Z.to_nat (i - s))). rewrite drop_drop in Hno.
    replace (Z.to_nat s + Z.to_nat (i - s))%nat with (Z.to_nat i) in Hno by lia.
    rewrite Hno; [done | lia].
  - rewrite Hr. rewrite drop_drop in Hyes.
    apply find_first; [done | lia | done | |].
    + unfold occurs.
      by replace (Z.to_nat (s + Z.of_nat k)) with (Z.to_nat s + k)%nat by lia.
    + intros i Hi. unfold occurs.
      specialize (Hno (Z.to_nat (i - s))). rewrite drop_drop in Hno.
      replace (Z.to_nat s + Z.to_nat (i - s))%nat with (Z.to_nat i) in Hno by lia.
      rewrite Hno; [done | lia].
Qed.

(** A found index is never negative, so [-1] is unambiguous. *)
Lemma find_nonneg data sub start end_ :
  find data sub start end_ = -1 ∨ 0 ≤ find data sub start end_.
Proof.
  destruct (find_ok data sub start end_); [by left | right; lia].
Qed.

Lemma first_occ_unique data sub s r r' :
  first_occ data sub s r → first_occ data sub s r' → r = r'.
Proof.
  intros (Hr & Ho & Hm) (Hr' & Ho' & Hm').
  destruct (Z.lt_trichotomy r r') as [Hlt | [-> | Hgt]]; [| done |].
  - destruct (Hm' r); [lia | done].
  - destruct (Hm r'); [lia | done].
Qed.

Lemma first_occ_no_occ data sub s r :
  first_occ data sub s r → no_occ data sub s → False.
Proof. intros (Hr & Ho & _) Hno. by apply (Hno r). Qed.

Lemma find_cases data sub start :
  (find data sub start None = -1 ∧
   no_occ data sub (adjust_start (len data) start)) ∨
  (find data sub start None ≠ -1 ∧
   first_occ data sub (adjust_start (len data) start) (find data sub start None)).
Proof.
  destruct (find_ok data sub start None) as [Hno | r Hs Hr He Ho Hm].
  - by left.
  - right. split; [lia | done].
Qed.

Lemma find_absent_iff data sub start :
  find data sub start None = -1 ↔ no_occ data sub (adjust_start (len data) start).
Proof.
  destruct (find_cases data sub start) as [[Hf Hno] | [Hf Hfirst]].
  - by split.
  - split; [done |]. intros Hno. by destruct (first_occ_no_occ _ _ _ _ Hfirst Hno).
Qed.

Lemma find_first_iff data sub start r :
  find data sub start None = r ∧ r ≠ -1 ↔
  first_occ data sub (adjust_start (len data) start) r.
Proof.
  destruct (find_cases data sub start) as [[Hf Hno] | [Hf Hfirst]].
  - split; [intros [<- Hr]; congruence |].
    intros Hfirst. by destruct (first_occ_no_occ _ _ _ _ Hfirst Hno).
  - split; [by intros [<- _] |].
    intros Hr. pose proof (first_occ_unique _ _ _ _ _ Hfirst Hr) as <-. done.
Qed.

Lemma adjust_start_id n i : 0 ≤ i → adjust_start n i = i.
Proof. unfold adjust_start. case_match; lia. Qed.

(** [sub] found in a window bounded on the right. *)
Lemma find_window_iff data sub p w :
  0 ≤ p → 0 ≤ w → len sub = w →
  find data sub p (Some (p + w)) ≠ -1 ↔ occurs data sub p ∧ p + w ≤ len data.
Proof.
  intros Hp Hw Hsub.
  pose proof (find_ok data sub p (Some (p + w))) as Hok.
  rewrite adjust_start_id in Hok by done.
  pose proof (len_nonneg data) as Hn.
  assert (Hadj : adjust_end (len data) (p + w) = Z.min (len data) (p + w)).
  { unfold adjust_end. repeat case_match; lia. }
  rewrite Hadj in Hok. split.
  - intros Hne. inversion Hok as [Hno | r Hs Hr He Ho Hm]; [congruence |].
    assert (Heq : find data sub p (Some (p + w)) = p) by lia.
    rewrite Heq in Ho. split; [done | lia].
  - intros [Ho Hle]. inversion Hok as [Hno | r Hs Hr He Ho' Hm]; [| lia].
    destruct (Hno p); [lia | done].
Qed.

Lemma occurs_bound data sub i :
  0 ≤ i → sub ≠ [] → occurs data sub i → i + len sub ≤ len data.
Proof.
  unfold occurs, len. intros Hi Hsub Ho. apply starts_with_prefix in Ho.
  apply prefix_length in Ho. rewrite length_drop in Ho.
  destruct sub as [|x sub]; [done |]. rewrite !length_cons in *. lia.
Qed.

Lemma occurs_byte data x i :
  0 ≤ i → occurs data [x] i ↔ data !! Z.to_nat i = Some x.
Proof.
  intros Hi. unfold occurs. rewrite starts_with_prefix.
  replace (data !! Z.to_nat i) with (drop (Z.to_nat i) data !! 0%nat)
    by (rewrite lookup_drop; f_equal; lia).
  destruct (drop (Z.to_nat i) data) as [|y l]; simpl.
  - split; [intros Hp; by apply prefix_nil_not in Hp | done].
  - split.
    + intros Hp. apply prefix_cons_inv_1 in Hp. by subst.
    + intros [= ->]. apply prefix_cons, prefix_nil.
Qed.

(** ** [getfield] against its specification *)

Lemma first_occ_nonneg data sub s r : 0 ≤ s → first_occ data sub s r → 0 ≤ r.
Proof. intros Hs (Hr & _). lia. Qed.

Lemma null_window data p :
  0 ≤ p →
  find data (b "null") p (Some (p + 4)) ≠ -1 ↔ occurs data (b "null") p.
Proof.
  intros Hp. rewrite (find_window_iff data (b "null") p 4) by done.
  split; [by intros [Ho _] |]. intros Ho. split; [done |].
  by apply (occurs_bound data (b "null") p).
Qed.

Lemma getfield_sound data field offset :
  getfield_spec data field (adjust_start (len data) offset)
    (getfield data field offset).
Proof.
  unfold getfield.
  pose proof (adjust_start_nonneg (len data) offset (len_nonneg data)) as Hs.
  pose proof (len_nonneg field) as Hf.
  destruct (find_cases data field offset) as [[-> Hno] | [Hne Hfs]].
  { rewrite decide_True by done. by apply field_absent. }
  rewrite decide_False by done.
  set (fs := find data field offset None) in *.
  assert (0 ≤ fs) as Hfs0 by (eapply first_occ_nonneg; [exact Hs | exact Hfs]).
  assert (0 ≤ fs + len field) as Hp by lia.
  case_decide as Hnull.
  { apply null_window in Hnull; [| done]. by eapply field_null. }
  assert (¬ occurs data (b "null") (fs + len field)) as Hnn.
  { intros Ho. apply (null_window data _ Hp) in Ho. congruence. }
  destruct (find_cases data [dquote] (fs + len field)) as [[-> Hnq] | [Hnev Hvs]];
    rewrite adjust_start_id in * by done.
  { rewrite decide_True by done. by eapply field_unquoted. }
  rewrite decide_False by done.
  set (vs := find data [dquote] (fs + len field) None) in *.
  assert (0 ≤ vs) as Hvs0 by (eapply first_occ_nonneg; [| done]; lia).
  destruct (find_cases data [dquote] (vs + 1)) as [[-> Hnq] | [Hnee Hve]];
    rewrite adjust_start_id in * by lia.
  { rewrite decide_True by done. by eapply field_unclosed. }
  rewrite decide_False by done. by eapply field_value.
Qed.

(** The cases of the specification exclude one another, so the
    specification determines the result. *)
Lemma getfield_spec_functional data field s r r' :
  getfield_spec data field s r → getfield_spec data field s r' → r = r'.
Proof.
  intros Hr Hr'.
  destruct Hr as [Hno | fs Hfs Hnull | fs Hfs Hnn Hnq | fs vs Hfs Hnn Hvs Hnq
                 | fs vs ve Hfs Hnn Hvs Hve];
    destruct Hr' as [Hno' | fs' Hfs' Hnull' | fs' Hfs' Hnn' Hnq'
                    | fs' vs' Hfs' Hnn' Hvs' Hnq' | fs' vs' ve' Hfs' Hnn' Hvs' Hve'];
    try done;
    try (by destruct (first_occ_no_occ _ _ _ _ Hfs Hno'));
    try (by destruct (first_occ_no_occ _ _ _ _ Hfs' Hno));
    pose proof (first_occ_unique _ _ _ _ _ Hfs Hfs') as <-;
    try done;
    try (by destruct (first_occ_no_occ _ _ _ _ Hvs Hnq'));
    try (by destruct (first_occ_no_occ _ _ _ _ Hvs' Hnq));
    pose proof (first_occ_unique _ _ _ _ _ Hvs Hvs') as <-;
    try (by destruct (first_occ_no_occ _ _ _ _ Hve Hnq'));
    try (by destruct (first_occ_no_occ _ _ _ _ Hve' Hnq)).
  by pose proof (first_occ_unique _ _ _ _ _ Hve Hve') as <-.
Qed.

(** ** Slices *)

Lemma slice_inside data lo hi :
  0 ≤ lo ≤ hi → hi ≤ len data →
  slice data lo hi = take (Z.to_nat (hi - lo)) (drop (Z.to_nat lo) data).
Proof.
  intros Hlo Hhi. unfold slice.
  rewrite adjust_start_id by lia.
  assert (adjust_end (len data) hi = hi) as ->.
  { unfold adjust_end. repeat case_match; lia. }
  by rewrite Z.min_r by lia.
Qed.

Lemma slice_length data lo hi :
  0 ≤ lo ≤ hi → hi ≤ len data → len (slice data lo hi) = hi - lo.
Proof.
  intros Hlo Hhi. rewrite slice_inside by done. unfold len in *.
  rewrite length_take, length_drop. lia.
Qed.

Lemma slice_lookup data lo hi (k : nat) :
  0 ≤ lo ≤ hi → hi ≤ len data → (k < length (slice data lo hi))%nat →
  slice data lo hi !! k = data !! (Z.to_nat lo + k)%nat.
Proof.
  intros Hlo Hhi Hk. pose proof (slice_length data lo hi Hlo Hhi) as Hlen.
  rewrite slice_inside by done. unfold len in Hlen.
  rewrite lookup_take_lt by lia. by rewrite lookup_drop.
Qed.

(** ** What a successful [getfield] returns *)

Lemma getfield_value data field offset v next :
  getfield data field offset = Some (v, next) →
  ∃ fs vs,
    first_occ data field (adjust_start (len data) offset) fs ∧
    ¬ occurs data (b "null") (fs + len field) ∧
    first_occ data [dquote] (fs + len field) vs ∧
    first_occ data [dquote] (vs + 1) (next - 1) ∧
    v = slice data (vs + 1) (next - 1).
Proof.
  intros Hget. pose proof (getfield_sound data field offset) as Hspec.
  rewrite Hget in Hspec. inversion Hspec as [| | | | fs vs ve Hfs Hnn Hvs Hve]; subst.
  exists fs, vs. by replace (ve + 1 - 1) with ve by lia.
Qed.

Lemma getfield_offsets data field offset v next :
  getfield data field offset = Some (v, next) →
  offset + len field + 2 ≤ next ≤ len data.
Proof.
  intros (fs & vs & (Hfs & _) & _ & (Hvs & _) & (Hve & _) & _)%getfield_value.
  assert (offset ≤ adjust_start (len data) offset).
  { unfold adjust_start. case_match; lia. }
  unfold len in *. simpl in *. lia.
Qed.

Lemma getfield_no_quote data field offset v next :
  getfield data field offset = Some (v, next) → dquote ∉ v.
Proof.
  intros (fs & vs & (Hfs & _) & _ & (Hvs & _) & (Hve & _ & Hmin) & ->)%getfield_value.
  pose proof (adjust_start_nonneg (len data) offset (len_nonneg data)) as Hs.
  pose proof (len_nonneg field) as Hf.
  assert (len [dquote] = 1) as Hq by done. rewrite Hq in *.
  intros (k & Hk)%list_elem_of_lookup.
  pose proof (lookup_lt_Some _ _ _ Hk) as Hlt.
  rewrite slice_lookup in Hk by lia.
  pose proof (slice_length data (vs + 1) (next - 1)) as Hlen.
  unfold len in Hlen at 2. 
  apply (Hmin (vs + 1 + Z.of_nat k)); [lia |].
  apply occurs_byte; [lia |].
  by replace (Z.to_nat (vs + 1 + Z.of_nat k)) with (Z.to_nat (vs + 1) + k)%nat by lia.
Qed.

(** ** The loop of [getlist] *)

(** [find] in the window that [getlist] scans: from [p] up to the adjusted
    [list_end]. *)
Lemma find_in_window data sub p le :
  0 ≤ p →
  (find data sub p (Some le) = -1 ∧
   ∀ i, p ≤ i ≤ adjust_end (len data) le - len sub → ¬ occurs data sub i) ∨
  (p ≤ find data sub p (Some le) ≤ adjust_end (len data) le - len sub ∧
   occurs data sub (find data sub p (Some le)) ∧
   ∀ i, p ≤ i < find data sub p (Some le) → ¬ occurs data sub i).
Proof.
  intros Hp. pose proof (find_ok data sub p (Some le)) as Hok.
  rewrite adjust_start_id in Hok by done.
  destruct Hok as [Hno | r Hs Hr He Ho Hm]; [by left | by right].
Qed.

Lemma brace_distinct data i :
  0 ≤ i → occurs data (b "{") i → occurs data (b "}") i → False.
Proof.
  intros Hi Ho Hc.
  apply (occurs_byte data "{"%byte i Hi) in Ho.
  apply (occurs_byte data "}"%byte i Hi) in Hc. congruence.
Qed.

Lemma getlist_loop_stuck data list_end e :
  unterminated data list_end e →
  ∀ fuel ptr items, 0 ≤ ptr ≤ e →
    getlist_loop fuel data list_end ptr items = None.
Proof.
  intros (He & Hopen & Hclose) fuel.
  induction fuel as [|fuel IH]; intros ptr items Hptr; [done |].
  cbn [getlist_loop].
  destruct (find_in_window data (b "{") ptr list_end) as [[_ Hno] | (Hs & Ho & Hm)];
    [lia | | ].
  { destruct (Hno e); [change (len (b "{")) with 1; lia | done]. }
  set (s := find data (b "{") ptr (Some list_end)) in *.
  change (len (b "{")) with 1 in Hs.
  assert (s ≤ e) as Hse.
  { destruct (Z.le_gt_cases s e) as [|Hgt]; [done |]. destruct (Hm e); [lia | done]. }
  rewrite decide_False by lia.
  destruct (find_in_window data (b "}") (s + 1) list_end) as [[Hq _] | (Hq & Hoq & _)];
    [lia | | ].
  { rewrite Hq. apply IH. lia. }
  set (q := find data (b "}") (s + 1) (Some list_end)) in *.
  change (len (b "}")) with 1 in Hq.
  apply IH. split; [lia |].
  destruct (Z.lt_trichotomy q e) as [Hlt | [-> | Hgt]]; [lia | |].
  { destruct (brace_distinct data e); [lia | done | done]. }
  destruct (find_in_window data (b "}") (e + 1) list_end) as [[_ Hno] | (Hr & _)];
    [lia | | ].
  - destruct (Hno q); [change (len (b "}")) with 1; lia | done].
  - rewrite Hclose in Hr. lia.
Qed.

Lemma first_within_unique data sub p stop r r' :
  first_within data sub p stop r → first_within data sub p stop r' → r = r'.
Proof.
  intros (Hr & Ho & Hm) (Hr' & Ho' & Hm').
  destruct (Z.lt_trichotomy r r') as [Hlt | [-> | Hgt]]; [| done |].
  - destruct (Hm' r); [lia | done].
  - destruct (Hm r'); [lia | done].
Qed.

Lemma first_not_none data sub p stop r :
  first_within data sub p stop r → none_within data sub p stop → False.
Proof. intros (Hr & Ho & _) Hno. by destruct (Hno r). Qed.

Lemma find_first_within data sub p list_end r :
  0 ≤ p →
  first_within data sub p (adjust_end (len data) list_end) r →
  find data sub p (Some list_end) = r.
Proof.
  intros Hp Hr.
  destruct (find_in_window data sub p list_end Hp) as [[_ Hno] | Hfound].
  - destruct (first_not_none _ _ _ _ _ Hr Hno).
  - by apply (first_within_unique data sub p (adjust_end (len data) list_end)).
Qed.

Lemma window_entries_unique data stop p e1 :
  window_entries data stop p e1 →
  ∀ e2, window_entries data stop p e2 → e1 = e2.
Proof.
  induction 1 as [p Hno | p s e rest Hs He _ IH]; intros e2 H2.
  - inversion H2 as [| ? s' ? ? Hs']; [done |]; subst.
    destruct (first_not_none _ _ _ _ _ Hs' Hno).
  - inversion H2 as [? Hno | ? s' e' rest' Hs' He' Hrest']; subst.
    + destruct (first_not_none _ _ _ _ _ Hs Hno).
    + assert (s' = s) as -> by by eapply first_within_unique.
      assert (e' = e) as -> by by eapply first_within_unique.
      f_equal. by apply IH.
Qed.

(** What the loop returns: one item for each entry of the window. *)
Lemma getlist_loop_window data list_end fuel :
  ∀ ptr items out, 0 ≤ ptr →
    getlist_loop fuel data list_end ptr items = Some out →
    ∃ entries,
      window_entries data (adjust_end (len data) list_end) ptr entries ∧
      out = items ++ (entry_name data <$> entries).
Proof.
  induction fuel as [|fuel IH]; intros ptr items out Hptr Hrun; [done |].
  cbn [getlist_loop] in Hrun.
  destruct (find_in_window data (b "{") ptr list_end) as [[Hs Hno] | (Hs & Ho & Hm)];
    [lia | | ].
  { rewrite Hs, decide_True in Hrun by done. injection Hrun as <-.
    exists []. split; [by constructor | by rewrite app_nil_r]. }
  set (s := find data (b "{") ptr (Some list_end)) in *.
  assert (len (b "{") = 1) as Hone by done. rewrite Hone in Hs.
  rewrite decide_False in Hrun by lia.
  destruct (find_in_window data (b "}") (s + 1) list_end) as [[Hq _] | (Hq & Hoq & Hmq)];
    [lia | | ].
  { rewrite (getlist_loop_stuck data list_end s) in Hrun; [done | | rewrite Hq; lia].
    repeat split; [lia | lia | done | done]. }
  set (q := find data (b "}") (s + 1) (Some list_end)) in *.
  assert (len (b "}") = 1) as Hone' by done. rewrite Hone' in Hq.
  apply IH in Hrun as (entries & Hent & ->); [| lia].
  exists ((s, q) :: entries). split; [| by rewrite <- app_assoc].
  apply entries_cons; [| | done].
  - split; [| done]. rewrite Hone. lia.
  - split; [| done]. rewrite Hone'. lia.
Qed.

(** The loop on a window whose entries are known: one round for each entry
    and one for the [break]. *)
Lemma getlist_loop_reads_window data list_end ptr entries :
  window_entries data (adjust_end (len data) list_end) ptr entries →
  0 ≤ ptr →
  ∀ fuel items, (length entries < fuel)%nat →
    getlist_loop fuel data list_end ptr items
    = Some (items ++ (entry_name data <$> entries)).
Proof.
  induction 1 as [p Hno | p s e rest Hs He _ IH]; intros Hp fuel items Hfuel;
    (destruct fuel as [|fuel]; [simpl in Hfuel; lia |]); cbn [getlist_loop].
  - destruct (find_in_window data (b "{") p list_end Hp) as [[Hf _] | (Hf & Ho & _)].
    + rewrite Hf, decide_True by done. by rewrite app_nil_r.
    + destruct (Hno (find data (b "{") p (Some list_end))); done.
  - pose proof Hs as (Hsr & _). pose proof He as (Her & _).
    rewrite (find_first_within data (b "{") p list_end s Hp Hs).
    rewrite decide_False by lia.
    rewrite (find_first_within data (b "}") (s + 1) list_end e) by (done || lia).
    rewrite IH by (simpl in Hfuel; lia).
    by rewrite <- app_assoc.
Qed.

(** Where no entry of the window is unterminated the loop reaches its
    [break], within as many rounds as the window has bytes, plus one. *)
Lemma getlist_loop_total data list_end :
  (∀ e, ¬ unterminated data list_end e) →
  ∀ fuel ptr items,
    0 ≤ ptr →
    Z.max 0 (adjust_end (len data) list_end - ptr) < Z.of_nat fuel →
    ∃ out, getlist_loop fuel data list_end ptr items = Some out.
Proof.
  intros Hclosed fuel.
  induction fuel as [|fuel IH]; intros ptr items Hptr Hfuel; [lia |].
  cbn [getlist_loop].
  destruct (find_in_window data (b "{") ptr list_end) as [[Hs _] | (Hs & Ho & _)];
    [lia | | ].
  { rewrite Hs, decide_True by done. by eexists. }
  set (s := find data (b "{") ptr (Some list_end)) in *.
  change (len (b "{")) with 1 in Hs.
  rewrite decide_False by lia.
  destruct (find_in_window data (b "}") (s + 1) list_end) as [[Hq _] | (Hq & _)];
    [lia | | ].
  { destruct (Hclosed s). repeat split; [lia | lia | done | done]. }
  change (len (b "}")) with 1 in Hq. apply IH; lia.
Qed.

(** Without the label, or with the empty-list marker after it, [getlist]
    returns the empty list before the loop. *)
Lemma getlist_absent fuel data field :
  find data field 0 None = -1 → getlist fuel data field = Some [].
Proof. intros Hfind. unfold getlist. by rewrite Hfind, decide_True. Qed.

Lemma getlist_diverges fuel data field e :
  let field_start := find data field 0 None in
  let list_start := find data (b "[") (field_start + len field) None in
  let list_end := find data (b "]") (list_start + 1) None in
  field_start ≠ -1 →
  find data (b "[]") (field_start + len field) (Some (field_start + len field + 3)) = -1 →
  unterminated data list_end e → list_start + 1 ≤ e →
  getlist fuel data field = None.
Proof.
  intros field_start list_start list_end Hfield Hempty Hbad He.
  unfold getlist. fold field_start. rewrite decide_False by done.
  rewrite Hempty, decide_False by (by intros ?).
  apply (getlist_loop_stuck data _ e); [done |]. fold list_start.
  destruct (find_nonneg data (b "[") (field_start + len field) None); lia.
Qed.

(** ** The dedup cache *)

Lemma keep_last_short {A} (l : list A) :
  len l ≤ DUPLICATE_HISTORY_LENGTH → keep_last l = l.
Proof.
  unfold keep_last, len, DUPLICATE_HISTORY_LENGTH. intros Hl.
  by replace (length l - Z.to_nat 1000)%nat with 0%nat by lia.
Qed.

Lemma keep_last_cons {A} (x : A) (l : list A) :
  DUPLICATE_HISTORY_LENGTH < len (x :: l) → keep_last (x :: l) = keep_last l.
Proof.
  unfold keep_last, len, DUPLICATE_HISTORY_LENGTH. rewrite length_cons. intros Hl.
  by replace (S (length l) - Z.to_nat 1000)%nat
    with (S (length l - Z.to_nat 1000))%nat by lia.
Qed.

Lemma keep_last_length {A} (l : list A) :
  len (keep_last l) = Z.min (len l) DUPLICATE_HISTORY_LENGTH.
Proof.
  unfold keep_last, len, DUPLICATE_HISTORY_LENGTH. rewrite length_drop. lia.
Qed.

Lemma keep_last_app {A} (l r : list A) :
  keep_last (keep_last l ++ r) = keep_last (l ++ r).
Proof.
  unfold keep_last. rewrite !length_app, length_drop.
  set (c := Z.to_nat DUPLICATE_HISTORY_LENGTH).
  set (a := (length l - c)%nat).
  replace (length l + length r - c)%nat
    with (a + (length l - a + length r - c))%nat by lia.
  rewrite <- drop_drop. f_equal. rewrite drop_app_le by lia. done.
Qed.

Lemma keep_last_sublist {A} (l : list A) (x : A) : x ∈ keep_last l → x ∈ l.
Proof. unfold keep_last. apply subseteq_drop. Qed.

Lemma keep_last_snoc {A} (l : list A) (x : A) : x ∈ keep_last (l ++ [x]).
Proof.
  unfold keep_last, DUPLICATE_HISTORY_LENGTH. rewrite length_app, length_cons, length_nil.
  rewrite drop_app_le by lia. set_solver.
Qed.

Lemma keep_last_last {A} (l : list A) (x : A) : last (keep_last (l ++ [x])) = Some x.
Proof.
  unfold keep_last, DUPLICATE_HISTORY_LENGTH.
  rewrite length_app, length_cons, length_nil, drop_app_le by lia.
  apply last_snoc.
Qed.

Lemma distinct_from_NoDup l :
  ∀ seen, distinct_from seen l = true → NoDup l ∧ ∀ x, x ∈ l → seen !! x = None.
Proof.
  induction l as [|x l IH]; intros seen Hd; simpl in Hd.
  { split; [constructor | by intros x Hx%elem_of_nil]. }
  destruct (seen !! x) eqn:Hx; [done |]. apply IH in Hd as [Hnd Hseen]. split.
  - constructor; [| done]. intros Hin. specialize (Hseen x Hin).
    by rewrite lookup_insert_eq in Hseen.
  - intros y [-> | Hy]%elem_of_cons; [done |]. specialize (Hseen y Hy).
    by apply lookup_insert_None in Hseen as [? _].
Qed.

Lemma distinct_NoDup l : distinct_from ∅ l = true → NoDup l.
Proof. intros Hd. by apply distinct_from_NoDup in Hd as [Hnd _]. Qed.

Section Cache.
Context `{PyStr}.

Lemma cache_inv_intro st :
  dom (posts st) = list_to_set (posts_order st) →
  NoDup (posts_order st) →
  len (posts_order st) ≤ DUPLICATE_HISTORY_LENGTH →
  cache_inv st.
Proof.
  intros Hdom Hnd Hlen. split; [done | | done | done].
  rewrite <- size_dom, Hdom. by apply size_list_to_set.
Qed.

Lemma cache_inv_initial us : cache_inv (initial us).
Proof. apply cache_inv_intro; simpl; [set_solver | constructor | done]. Qed.

(** On a cache that satisfies the invariant but for its size, the
    eviction loop raises nothing and keeps the newest ids. *)
Lemma evict_keep_last (order : list bytes) (cache : gmap bytes (bytes * list bytes)) :
  NoDup order → dom cache = list_to_set order →
  ∃ cache',
    evict order cache = (keep_last order, cache', None) ∧
    dom cache' = list_to_set (keep_last order) ∧
    ∀ k, k ∈ keep_last order → cache' !! k = cache !! k.
Proof.
  revert cache. induction order as [|k rest IH]; intros cache Hnd Hdom.
  { exists cache. by rewrite keep_last_short. }
  cbn [evict]. case_decide as Hlen.
  - apply NoDup_cons in Hnd as [Hk Hnd].
    assert (is_Some (cache !! k)) as [v Hv].
    { apply elem_of_dom. rewrite Hdom. set_solver. }
    rewrite Hv, keep_last_cons by done.
    destruct (IH (delete k cache)) as (cache' & Hev & Hdom' & Hsame); [done | |].
    { rewrite dom_delete_L, Hdom. set_solver. }
    exists cache'. split; [done | split; [done |]].
    intros k' Hk'. rewrite Hsame by done. apply lookup_delete_ne.
    intros <-. by apply Hk, keep_last_sublist.
  - exists cache. by rewrite keep_last_short by lia.
Qed.

End Cache.

(** ** One call of [process_update] *)

Section Ingest.
Context `{PyStr}.

Lemma process_update_no_uri fuel data st :
  getfield data uri_label 0 = None → process_update fuel data st = (st, Returned).
Proof. intros Hget. unfold process_update. by rewrite Hget. Qed.

Lemma process_update_duplicate fuel data st url n :
  getfield data uri_label 0 = Some (url, n) → is_Some (posts st !! url) →
  process_update fuel data st = (st, Returned).
Proof. intros Hget Hin. unfold process_update. by rewrite Hget, decide_True. Qed.

Lemma process_update_fresh fuel data st url n :
  cache_inv st →
  getfield data uri_label 0 = Some (url, n) → posts st !! url = None →
  ∃ cache,
    dom cache = list_to_set (keep_last (posts_order st ++ [url])) ∧
    cache !! url = Some (url, []) ∧
    process_update fuel data st = fan_out fuel data url (counted st cache url).
Proof.
  intros [Hdom _ _ Hnd] Hget Hnew.
  assert (url ∉ posts_order st) as Hurl.
  { intros Hin. apply (not_elem_of_dom (posts st) url) in Hnew.
    apply Hnew. rewrite Hdom. set_solver. }
  destruct (evict_keep_last (posts_order st ++ [url])
              (<[url := (url, [])]> (posts st))) as (cache & Hev & Hdom' & Hsame).
  { apply NoDup_app. repeat split; [done | set_solver | apply NoDup_singleton]. }
  { rewrite dom_insert_L, Hdom. set_solver. }
  exists cache. split; [done |]. split.
  { rewrite Hsame by apply keep_last_snoc. apply lookup_insert_eq. }
  unfold process_update. rewrite Hget, decide_False by (rewrite Hnew; by intros [? ?]).
  rewrite Hev. unfold fan_out, counted, with_users; simpl.
  destruct (getlist fuel data tags_label) as [items |]; [| done].
  destruct (decode_tags items) as [l | e]; [| done].
  case_decide; [| done]. by destruct (route _ _ _).
Qed.

Lemma fan_out_cache fuel data url st2 :
  posts (fan_out fuel data url st2).1 = posts st2 ∧
  posts_order (fan_out fuel data url st2).1 = posts_order st2.
Proof.
  unfold fan_out. destruct (getlist fuel data tags_label) as [items |]; [| done].
  destruct (decode_tags items) as [l | e]; [| done].
  case_decide; [| done]. by destruct (route _ _ _).
Qed.

(** What a call does to the cache. *)
Lemma process_update_cache fuel data st :
  cache_inv st →
  let st' := (process_update fuel data st).1 in
  (posts st' = posts st ∧ posts_order st' = posts_order st) ∨
  (∃ url n,
      getfield data uri_label 0 = Some (url, n) ∧ posts st !! url = None ∧
      posts_order st' = keep_last (posts_order st ++ [url]) ∧
      dom (posts st') = list_to_set (posts_order st') ∧
      posts st' !! url = Some (url, [])).
Proof.
  intros Hinv st'. subst st'.
  destruct (getfield data uri_label 0) as [[url n] |] eqn:Hget.
  - destruct (posts st !! url) as [v |] eqn:Hurl.
    + left. by rewrite (process_update_duplicate _ _ _ url n).
    + right. exists url, n.
      destruct (process_update_fresh fuel data st url n) as (cache & Hdom & Hin & ->);
        [done.. |].
      destruct (fan_out_cache fuel data url (counted st cache url)) as [-> ->].
      done.
  - left. by rewrite process_update_no_uri.
Qed.

Lemma process_update_inv fuel data st :
  cache_inv st → cache_inv (process_update fuel data st).1.
Proof.
  intros Hinv.
  destruct (process_update_cache fuel data st Hinv)
    as [[Hp Ho] | (url & n & Hget & Hnew & Ho & Hdom & _)].
  - destruct Hinv as [Hdom Hsize Hbound Hnd].
    split; by rewrite ?Hp, ?Ho.
  - apply cache_inv_intro; [done | |].
    + rewrite Ho. unfold keep_last.
      eapply sublist_NoDup; [| apply sublist_drop].
      apply NoDup_app. repeat split; [apply Hinv | | apply NoDup_singleton].
      intros x Hx ->%list_elem_of_singleton.
      apply (not_elem_of_dom (posts st) url) in Hnew. apply Hnew.
      rewrite (cache_dom _ Hinv). set_solver.
    + rewrite Ho, keep_last_length. lia.
Qed.

End Ingest.

(** ** Sequences of calls and the router *)

Section Router.
Context `{PyStr}.

Lemma process_updates_inv fuel datas :
  ∀ st, cache_inv st → cache_inv (process_updates fuel datas st).1.
Proof.
  induction datas as [|data datas IH]; intros st Hinv; [done |].
  cbn [process_updates].
  pose proof (process_update_inv fuel data st Hinv) as Hinv1.
  destruct (process_update fuel data st) as [st1 o]. simpl in Hinv1.
  destruct o; by try apply IH.
Qed.

Lemma process_updates_fifo fuel datas :
  ∀ ids st,
    cache_inv st → uris datas = Some <$> ids →
    NoDup (posts_order st ++ ids) →
    (process_updates fuel datas st).2 = true →
    cache_inv (process_updates fuel datas st).1 ∧
    posts_order (process_updates fuel datas st).1 = keep_last (posts_order st ++ ids).
Proof.
  induction datas as [|data datas IH]; intros ids st Hinv Huris Hnd Hret.
  { destruct ids; [| done]. simpl. rewrite app_nil_r.
    split; [done |]. symmetry. apply keep_last_short, Hinv. }
  destruct ids as [|id ids]; [done |].
  injection Huris as Hid Huris.
  destruct (getfield data uri_label 0) as [[url n] |] eqn:Hget; [| done].
  injection Hid as ->.
  assert (posts st !! id = None) as Hnew.
  { apply (not_elem_of_dom (posts st)). rewrite (cache_dom _ Hinv).
    apply NoDup_app in Hnd as (_ & Hnd & _). set_solver. }
  pose proof (process_update_inv fuel data st Hinv) as Hinv1.
  destruct (process_update_cache fuel data st Hinv)
    as [[Hp _] | (url & n' & Hget' & _ & Ho & _ & Hin)].
  { apply (f_equal (λ m, m !! id)) in Hp. rewrite Hnew in Hp.
    destruct (process_update_fresh fuel data st id n Hinv Hget Hnew)
      as (cache & _ & Hin & Heq).
    rewrite Heq in Hp.
    destruct (fan_out_cache fuel data id (counted st cache id)) as [Hq _].
    rewrite Hq in Hp. simpl in Hp. congruence. }
  rewrite Hget in Hget'. injection Hget' as <- <-.
  cbn [process_updates] in *.
  destruct (process_update fuel data st) as [st1 o] eqn:Hpu. simpl in Ho, Hinv1.
  assert (posts_order st ++ id :: ids = (posts_order st ++ [id]) ++ ids) as Hsnoc
    by (by rewrite <- app_assoc).
  assert (NoDup (posts_order st1 ++ ids)) as Hnd1.
  { eapply sublist_NoDup; [exact Hnd |]. rewrite Ho, Hsnoc.
    apply sublist_app; [unfold keep_last; apply sublist_drop | done]. }
  assert (keep_last (posts_order st1 ++ ids) = keep_last (posts_order st ++ id :: ids))
    as Hkeep.
  { by rewrite Ho, keep_last_app, Hsnoc. }
  destruct o; [| | done]; rewrite <- Hkeep; by apply IH.
Qed.

Lemma route_delivers post_tags url us :
  Forall (λ u, is_Some (UserConnection.tags u)) us → is_Some (decode url) →
  route post_tags url us = (deliver post_tags url <$> us, None).
Proof.
  intros Hus [s Hs]. induction Hus as [|u us [own Hown] _ IH]; [done |].
  cbn [route]. rewrite fmap_cons, IH.
  unfold UserConnection.queue_post, deliver. rewrite Hown, Hs.
  by case_decide.
Qed.

(** An agent whose [tags] is [None] ends the loop: the agents after it are
    not offered the post. *)
Lemma route_stops_at_none post_tags url u us :
  UserConnection.tags u = None →
  route post_tags url (u :: us) = (u :: us, Some AttributeError).
Proof. intros Hu. cbn [route]. unfold UserConnection.queue_post. by rewrite Hu. Qed.

Lemma deliver_spec post_tags url u own :
  UserConnection.tags u = Some own →
  UserConnection.tags (deliver post_tags url u) = Some own ∧
  ((own ∩ post_tags ≠ ∅ ∧
    UserConnection.posts (deliver post_tags url u) = UserConnection.posts u ++ [url]) ∨
   (own ∩ post_tags = ∅ ∧
    UserConnection.posts (deliver post_tags url u) = UserConnection.posts u)).
Proof.
  intros Hown. unfold deliver. rewrite Hown. case_decide as Hsize.
  - split; [done |]. left. split; [| done].
    intros Hempty. rewrite Hempty, size_empty in Hsize. lia.
  - split; [done |]. right. split; [| done].
    apply leibniz_equiv, size_empty_inv. lia.
Qed.

End Router.

(** ** The re-scan loop of [followed_tags] *)

Section Refresh.
Context `{PyStr}.

Lemma followed_tags_loop_terminates fuel chunk :
  ∀ offset acc,
    0 ≤ offset ≤ len chunk → len chunk - offset < Z.of_nat fuel →
    ∃ r, UserConnection.followed_tags_loop fuel chunk offset acc = Some r.
Proof.
  induction fuel as [|fuel IH]; intros offset acc Hoff Hfuel; [lia |].
  cbn [UserConnection.followed_tags_loop].
  destruct (getfield chunk name_label offset) as [[next_tag offset'] |] eqn:Hget;
    [| by eexists].
  apply getfield_offsets in Hget. pose proof (len_nonneg name_label).
  destruct (decode next_tag); [| by eexists]. apply IH; lia.
Qed.

Lemma followed_tags_no_name fuel chunk :
  getfield chunk name_label 0 = None →
  UserConnection.followed_tags_loop (S fuel) chunk 0 ∅ = Some (inl ∅).
Proof. intros Hget. cbn [UserConnection.followed_tags_loop]. by rewrite Hget. Qed.

End Refresh.

(** ** The fan-out of one call *)

(** A payload with a fresh id whose tags all decode to a non-empty set,
    agents that all hold a tag set, an id that the log line can decode: the
    call returns, and each agent's queue has the id appended once if the
    agent's tags meet the tags of the post, and is unchanged otherwise. *)
Lemma post_is_queued_for_matching_agents `{PyStr} fuel data st url n items l :
  cache_inv st →
  getfield data uri_label 0 = Some (url, n) → posts st !! url = None →
  getlist fuel data tags_label = Some items → decode_tags items = inl l → l ≠ [] →
  Forall (λ u, is_Some (UserConnection.tags u)) (users st) →
  is_Some (decode url) →
  (process_update fuel data st).2 = Returned ∧
  Forall2 (λ u u',
      UserConnection.server u' = UserConnection.server u ∧
      ∃ own, UserConnection.tags u = Some own ∧ UserConnection.tags u' = Some own ∧
        ((own ∩ list_to_set l ≠ ∅ ∧
          UserConnection.posts u' = UserConnection.posts u ++ [url]) ∨
         (own ∩ list_to_set l = ∅ ∧
          UserConnection.posts u' = UserConnection.posts u)))
    (users st) (users (process_update fuel data st).1).
Proof.
  intros Hinv Hget Hnew Hlist Hdec Hl Hus Hurl.
  destruct (process_update_fresh fuel data st url n Hinv Hget Hnew)
    as (cache & _ & _ & ->).
  unfold fan_out. rewrite Hlist, Hdec.
  rewrite decide_True.
  2:{ destruct l as [|x l]; [done |].
      assert (size (list_to_set (x :: l) : gset str) ≠ 0%nat); [| lia].
      apply size_non_empty_iff. set_solver. }
  cbn [users counted]. rewrite (route_delivers _ _ _ Hus Hurl). simpl.
  split; [done |]. apply Forall2_fmap_r, Forall_Forall2_diag.
  eapply Forall_impl; [exact Hus |]. intros u [own Hown]. simpl.
  destruct (deliver_spec (list_to_set l) url u own Hown) as [Htags Hposts].
  split.
  { unfold deliver. rewrite Hown. by case_decide. }
  by exists own.
Qed.

Example post_is_queued_for_three_agents :
  let st' := (process_update (H := ascii_text) 5 tagged_b (initial three_agents)).1 in
  (process_update (H := ascii_text) 5 tagged_b (initial three_agents)).2 = Returned ∧
  Forall2 (λ u u',
      UserConnection.server u' = UserConnection.server u ∧
      ∃ own, UserConnection.tags u = Some own ∧ UserConnection.tags u' = Some own ∧
        ((own ∩ list_to_set [b "b"] ≠ ∅ ∧
          UserConnection.posts u' = UserConnection.posts u ++ [b "https://a.b/1"]) ∨
         (own ∩ list_to_set [b "b"] = ∅ ∧
          UserConnection.posts u' = UserConnection.posts u)))
    three_agents (users st').
Proof.
  apply (post_is_queued_for_matching_agents (H := ascii_text) 5 tagged_b
           (initial three_agents) (b "https://a.b/1") 22 [Some (b "B")] [b "b"]).
  - apply cache_inv_initial.
  - vm_compute. reflexivity.
  - reflexivity.
  - vm_compute. reflexivity.
  - vm_compute. reflexivity.
  - discriminate.
  - repeat constructor; by eexists.
  - by eexists.
Qed.

(** The queues of the three agents of the example, following [a], [b] and
    both, after a post tagged [B]. *)
Example three_agents_queues :
  UserConnection.posts <$>
    users (process_update (H := ascii_text) 5 tagged_b (initial three_agents)).1
  = [[]; [b "https://a.b/1"]; [b "https://a.b/1"]].
Proof. vm_compute. reflexivity. Qed.

(** * The claims *)

(** ** C1 *)

(** C1: the cache invariant holds at start-up and after every call of
    [process_update]: [posts] and [posts_order] hold the same ids, as many of
    them, at most 1000.  After the calls for more than 1000 distinct ids the
    cache holds the last 1000 of them, in the order of their insertion; a
    call for an id that is in the cache leaves the cache as it is. *)
Theorem dedup_cache_is_bounded_fifo `{PyStr} :
  (∀ us, cache_inv (initial us)) ∧
  (∀ fuel data st, cache_inv st → cache_inv (process_update fuel data st).1) ∧
  (∀ fuel us datas, cache_inv (process_updates fuel datas (initial us)).1) ∧
  (∀ st, cache_inv st →
     dom (posts st) = list_to_set (posts_order st) ∧
     size (posts st) = length (posts_order st) ∧
     len (posts_order st) ≤ 1000) ∧
  (∀ fuel us datas ids,
     uris datas = Some <$> ids → NoDup ids →
     DUPLICATE_HISTORY_LENGTH < len ids →
     (process_updates fuel datas (initial us)).2 = true →
     let st' := (process_updates fuel datas (initial us)).1 in
     posts_order st' = drop (length ids - 1000) ids ∧
     dom (posts st') = list_to_set (drop (length ids - 1000) ids) ∧
     size (posts st') = 1000%nat) ∧
  (∀ fuel data st url n,
     getfield data uri_label 0 = Some (url, n) → url ∈ dom (posts st) →
     posts (process_update fuel data st).1 = posts st ∧
     posts_order (process_update fuel data st).1 = posts_order st).
Proof.
  split; [apply cache_inv_initial |].
  split; [apply process_update_inv |].
  split; [intros fuel us datas; apply process_updates_inv, cache_inv_initial |].
  split; [by intros st [Hdom Hsize Hbound _] |].
  split.
  - intros fuel us datas ids Huris Hnd Hlen Hret st'.
    destruct (process_updates_fifo fuel datas ids (initial us)) as [Hinv Ho];
      [apply cache_inv_initial | done | done | done |].
    fold st' in Hinv, Ho. simpl in Ho. unfold keep_last in Ho.
    change (Z.to_nat DUPLICATE_HISTORY_LENGTH) with 1000%nat in Ho.
    destruct Hinv as [Hdom Hsize _ _].
    rewrite Hsize, Hdom, Ho, length_drop.
    unfold len, DUPLICATE_HISTORY_LENGTH in Hlen. repeat split; lia.
  - intros fuel data st url n Hget Hin%elem_of_dom.
    by rewrite (process_update_duplicate fuel data st url n).
Qed.

Lemma dedup_cache_is_bounded_fifo_witness :
  let datas := numbered_payload <$> seq 0 1003 in
  let ids := numbered_uri <$> seq 0 1003 in
  let st' := (process_updates (H := ascii_text) 0 datas (initial [])).1 in
  posts_order st' = drop (length ids - 1000) ids ∧
  dom (posts st') = list_to_set (drop (length ids - 1000) ids) ∧
  size (posts st') = 1000%nat.
Proof.
  intros datas ids.
  apply (proj1 (proj2 (proj2 (proj2 (proj2
           (dedup_cache_is_bounded_fifo (H := ascii_text))))))
           0%nat [] datas ids).
  - vm_compute. reflexivity.
  - apply distinct_NoDup. vm_compute. reflexivity.
  - vm_compute. reflexivity.
  - vm_compute. reflexivity.
Defined.

(** ** C2 *)

(** C2: the code at the responses the claim speaks of.  An empty first line
    makes [followed_tags] return [None], which [update_tags] stores in
    [self.tags]; a first line without a name (here [[]] and a newline) makes
    it store the empty set; a failing request raises out of the loop of
    [update_tags].  With [None] in [self.tags], [queue_post] raises. *)
Theorem refresh_overwrites_followed_tags `{PyStr} fuel (self : UserConnection.t) :
  UserConnection.update_tags_round fuel (UserConnection.FirstLine []) self
    = Some (UserConnection.set_tags self None, None) ∧
  UserConnection.update_tags_round (S fuel)
      (UserConnection.FirstLine (b "[]" ++ [x0a])) self
    = Some (UserConnection.set_tags self (Some ∅), None) ∧
  UserConnection.update_tags_round fuel UserConnection.RequestFails self
    = Some (self, Some ClientError) ∧
  (∀ post_tags url,
     UserConnection.queue_post (UserConnection.set_tags self None) post_tags url
       = (UserConnection.set_tags self None, Some AttributeError)).
Proof.
  split; [done |]. split; [| done].
  unfold UserConnection.update_tags_round, UserConnection.followed_tags.
  rewrite decide_False by done.
  by rewrite followed_tags_no_name by (vm_compute; reflexivity).
Qed.

(** ** C3 *)

(** C3: the fan-out at a state that a refresh round leaves behind.  The
    first agent read an empty first line and holds [None]; the second
    follows [b].  For a post tagged [B], [queue_post] raises at the first
    agent, the [except] branch prints, and the second agent's queue stays
    empty although its tags meet the tags of the post. *)
Theorem agent_without_tags_stops_fan_out :
  UserConnection.update_tags_round 0 (UserConnection.FirstLine []) (agent [b "a"])
    = Some (lapsed_agent, None) ∧
  let st := initial (H := ascii_text) [lapsed_agent; agent [b "b"]] in
  (process_update 5 tagged_b st).2 = Caught AttributeError ∧
  users (process_update 5 tagged_b st).1 = [lapsed_agent; agent [b "b"]] ∧
  UserConnection.posts (agent [b "b"]) = [].
Proof. repeat split; vm_compute; reflexivity. Qed.

(** ** C4 *)

(** C4: a buffer on which [getlist] does not return.  The entry opened in
    the list of [unterminated_entry] has no closing brace before the closing
    bracket, and no number of iterations of the loop reaches the [break]. *)
Theorem getlist_loops_on_unterminated_entry fuel :
  getlist fuel unterminated_entry tags_label = None.
Proof.
  apply (getlist_diverges fuel unterminated_entry tags_label 31).
  - by vm_compute.
  - vm_compute. reflexivity.
  - split; [by vm_compute | split; vm_compute; reflexivity].
  - by vm_compute.
Qed.

(** ** C5 *)

(** C5, as worded, fails on a label followed by a number: the label is
    there, [null] does not follow, and [getfield] returns [None]. *)
Lemma getfield_none_for_number : ¬ null_or_value number_valued uri_label 0.
Proof.
  intros [_ Hvalue]. destruct Hvalue as (v & next & Hget); [| by vm_compute in Hget].
  assert (first_occ number_valued uri_label 0 1) as Hfirst.
  { apply (find_first_iff number_valued uri_label 0 1). by vm_compute. }
  intros [Hno | (fs & Hfs & Hnull)].
  - by destruct (first_occ_no_occ _ _ _ _ Hfirst Hno).
  - change (adjust_start (len number_valued) 0) with 0 in Hfs.
    pose proof (first_occ_unique _ _ _ _ _ Hfirst Hfs) as <-.
    by vm_compute in Hnull.
Qed.

(** C5, amended: [getfield] returns what [getfield_spec] says.  [None] for an
    absent label, for a label followed by [null], and for a label that is
    not followed by two double quotes; otherwise the bytes between the
    first two double quotes after the label and the index after the
    second. *)
Theorem getfield_meets_spec data field offset r :
  getfield data field offset = r ↔
  getfield_spec data field (adjust_start (len data) offset) r.
Proof.
  split.
  - intros <-. apply getfield_sound.
  - intros Hspec. eapply getfield_spec_functional; [apply getfield_sound | done].
Qed.

(** ** C6 *)

(** C6: the code at a list with an entry that has no name.  [getfield]
    answers [None] for the entry and [getlist] appends it: the list of
    [nameless_entry] is read as [[None]], the one of [half_named] as the name
    [b] and [None].  The caller decodes every item, [None] has no [decode],
    and the [except] branch prints: the agent that follows [b] is not
    offered the post of [half_named].  [followed_tags] reads the name label
    with [getfield] too, but tests the value for [None] before it decodes:
    from the same list it reads the set that holds [b]. *)
Theorem nameless_entry_stops_routing :
  getlist 2 nameless_entry tags_label = Some [None] ∧
  getlist 3 half_named tags_label = Some [Some (b "b"); None] ∧
  (let st := initial (H := ascii_text) [agent [b "b"]] in
   (process_update 3 half_named st).2 = Caught AttributeError ∧
   users (process_update 3 half_named st).1 = [agent [b "b"]] ∧
   UserConnection.posts (agent [b "b"]) = []) ∧
  UserConnection.followed_tags (H := ascii_text) 3
    (UserConnection.FirstLine
       (b "[{'name':'b'},{'url':'https://a.b/tags/c'}]" ++ [x0a]))
  = Some (inl (Some (list_to_set [b "b"]))).
Proof. repeat split; vm_compute; reflexivity. Qed.

(** ** C7 *)

(** C7: a payload with a fresh id and an empty tag list.  The call returns;
    the id is in the cache and last in [posts_order]; [total], [post_count]
    and the count of the id's server are one higher; the agents are
    unchanged. *)
Theorem untagged_post_is_counted_not_routed `{PyStr} fuel data st url n :
  cache_inv st →
  getfield data uri_label 0 = Some (url, n) → posts st !! url = None →
  getlist fuel data tags_label = Some [] →
  let st' := (process_update fuel data st).1 in
  let server := split_head "/"%byte (slice_from url 8) in
  (process_update fuel data st).2 = Returned ∧
  posts st' !! url = Some (url, []) ∧
  posts_order st' = keep_last (posts_order st ++ [url]) ∧
  last (posts_order st') = Some url ∧
  total st' = total st + 1 ∧
  post_count st' = post_count st + 1 ∧
  servers st' !! server = Some (default 0 (servers st !! server) + 1) ∧
  (∀ other, other ≠ server → servers st' !! other = servers st !! other) ∧
  users st' = users st.
Proof.
  intros Hinv Hget Hnew Hlist st' server. subst st'.
  destruct (process_update_fresh fuel data st url n Hinv Hget Hnew)
    as (cache & _ & Hin & ->).
  unfold fan_out. rewrite Hlist. cbn [decode_tags list_to_set].
  rewrite decide_False by (rewrite size_empty; lia).
  cbn [fst snd counted posts posts_order total post_count servers users].
  repeat split; try done.
  - apply keep_last_last.
  - fold server. unfold count_server.
    destruct (servers st !! server) as [c |] eqn:Hc; simpl;
      by rewrite lookup_insert_eq.
  - intros other Hother. fold server. unfold count_server.
    destruct (servers st !! server); by rewrite lookup_insert_ne.
Qed.

Lemma untagged_post_is_counted_not_routed_witness :
  let st := initial (H := ascii_text) three_agents in
  let st' := (process_update 0 untagged st).1 in
  let server := split_head "/"%byte (slice_from (b "https://a.b/1") 8) in
  (process_update 0 untagged st).2 = Returned ∧
  posts st' !! b "https://a.b/1" = Some (b "https://a.b/1", []) ∧
  posts_order st' = keep_last (posts_order st ++ [b "https://a.b/1"]) ∧
  last (posts_order st') = Some (b "https://a.b/1") ∧
  total st' = total st + 1 ∧
  post_count st' = post_count st + 1 ∧
  servers st' !! server = Some (default 0 (servers st !! server) + 1) ∧
  (∀ other, other ≠ server → servers st' !! other = servers st !! other) ∧
  users st' = users st.
Proof.
  apply (untagged_post_is_counted_not_routed (H := ascii_text) 0 untagged
           (initial three_agents) (b "https://a.b/1") 22).
  - apply cache_inv_initial.
  - vm_compute. reflexivity.
  - reflexivity.
  - vm_compute. reflexivity.
Defined.

(** ** C8 *)

(** C8: a payload whose id is in the cache.  The call returns and the state
    is the state before the call. *)
Theorem duplicate_post_changes_nothing `{PyStr} fuel data st url n :
  getfield data uri_label 0 = Some (url, n) → url ∈ dom (posts st) →
  process_update fuel data st = (st, Returned).
Proof.
  intros Hget Hin%elem_of_dom. by apply (process_update_duplicate fuel data st url n).
Qed.

Lemma duplicate_post_changes_nothing_witness :
  let st := (process_update (H := ascii_text) 5 tagged_b (initial three_agents)).1 in
  process_update 0 untagged st = (st, Returned).
Proof.
  apply (duplicate_post_changes_nothing (H := ascii_text) 0 untagged _
           (b "https://a.b/1") 22).
  - vm_compute. reflexivity.
  - apply elem_of_dom. eexists. vm_compute. reflexivity.
Defined.

(** ** C9 *)

(** C9: the offset that [getfield] returns with a value is beyond the offset
    it was given, and the loop of [followed_tags], which passes the offset
    back, ends within as many rounds as the chunk has bytes, plus one. *)
Theorem getfield_moves_forward `{PyStr} :
  (∀ data field offset v next,
     field ≠ [] → getfield data field offset = Some (v, next) → offset < next) ∧
  (∀ chunk acc,
     ∃ r, UserConnection.followed_tags_loop (S (length chunk)) chunk 0 acc = Some r).
Proof.
  split.
  - intros data field offset v next _ Hget%getfield_offsets.
    pose proof (len_nonneg field). lia.
  - intros chunk acc. apply followed_tags_loop_terminates; unfold len; lia.
Qed.

Lemma getfield_moves_forward_witness :
  getfield two_tags name_label 31 = Some (b "Foo", 44) ∧ 31 < 44.
Proof.
  split; [vm_compute; reflexivity |].
  apply (proj1 (getfield_moves_forward (H := ascii_text)) two_tags name_label 31
           (b "Foo") 44).
  - discriminate.
  - vm_compute. reflexivity.
Defined.

(** ** C10 *)

(** C10: the value that [getfield] returns is the run of bytes between the
    first double quote after the label and the next double quote, so it
    holds no double quote; the value of [escaped_quote] is cut at the
    escaped quote. *)
Theorem getfield_value_ends_at_next_quote :
  (∀ data field offset v next,
     getfield data field offset = Some (v, next) →
     ∃ fs vs,
       first_occ data field (adjust_start (len data) offset) fs ∧
       first_occ data [dquote] (fs + len field) vs ∧
       first_occ data [dquote] (vs + 1) (next - 1) ∧
       v = slice data (vs + 1) (next - 1) ∧
       len v = next - 1 - (vs + 1) ∧
       (∀ k : nat, (k < length v)%nat → v !! k = data !! (Z.to_nat (vs + 1) + k)%nat) ∧
       dquote ∉ v) ∧
  getfield escaped_quote uri_label 0 = Some (b "https://a.b/\", 22).
Proof.
  split; [| vm_compute; reflexivity].
  intros data field offset v next Hget.
  pose proof (getfield_no_quote _ _ _ _ _ Hget) as Hquote.
  destruct (getfield_value _ _ _ _ _ Hget) as (fs & vs & Hfs & _ & Hvs & Hve & ->).
  exists fs, vs. repeat split; try done; try apply Hfs; try apply Hvs; try apply Hve.
  - apply slice_length.
    + pose proof (adjust_start_nonneg (len data) offset (len_nonneg data)).
      pose proof (len_nonneg field).
      destruct Hfs as [? _], Hvs as [? _], Hve as [? _]. lia.
    + destruct Hve as [Hve _]. change (len [dquote]) with 1 in Hve. lia.
  - intros k Hk. apply slice_lookup; [| | done].
    + pose proof (adjust_start_nonneg (len data) offset (len_nonneg data)).
      pose proof (len_nonneg field).
      destruct Hfs as [? _], Hvs as [? _], Hve as [? _]. lia.
    + destruct Hve as [Hve _]. change (len [dquote]) with 1 in Hve. lia.
Qed.

Lemma getfield_value_ends_at_next_quote_witness :
  ∃ fs vs,
    first_occ two_tags uri_label (adjust_start (len two_tags) 0) fs ∧
    first_occ two_tags [dquote] (fs + len uri_label) vs ∧
    first_occ two_tags [dquote] (vs + 1) (22 - 1) ∧
    b "https://a.b/1" = slice two_tags (vs + 1) (22 - 1) ∧
    len (b "https://a.b/1") = 22 - 1 - (vs + 1) ∧
    (∀ k : nat, (k < length (b "https://a.b/1"))%nat →
       b "https://a.b/1" !! k = two_tags !! (Z.to_nat (vs + 1) + k)%nat) ∧
    dquote ∉ b "https://a.b/1".
Proof.
  apply (proj1 getfield_value_ends_at_next_quote two_tags uri_label 0
           (b "https://a.b/1") 22).
  vm_compute. reflexivity.
Defined.

(** * Further properties *)

(** ** Scanning a suffix *)

Lemma getfield_by_spec data field offset r :
  getfield_spec data field (adjust_start (len data) offset) r →
  getfield data field offset = r.
Proof.
  intros Hspec. eapply getfield_spec_functional; [apply getfield_sound | done].
Qed.

Lemma occurs_drop data sub off i :
  0 ≤ off → 0 ≤ i →
  occurs (drop (Z.to_nat off) data) sub i ↔ occurs data sub (off + i).
Proof.
  intros Hoff Hi. unfold occurs. rewrite drop_drop.
  by replace (Z.to_nat off + Z.to_nat i)%nat with (Z.to_nat (off + i)) by lia.
Qed.

Lemma occurs_drop_1 data sub off i :
  0 ≤ off → 0 ≤ i →
  occurs (drop (Z.to_nat off) data) sub i → occurs data sub (off + i).
Proof. intros. by apply occurs_drop. Qed.

Lemma occurs_drop_2 data sub off i :
  0 ≤ off → 0 ≤ i →
  occurs data sub (off + i) → occurs (drop (Z.to_nat off) data) sub i.
Proof. intros. by apply occurs_drop. Qed.

Lemma len_drop (data : bytes) off :
  0 ≤ off ≤ len data → len (drop (Z.to_nat off) data) = len data - off.
Proof. unfold len. rewrite length_drop. lia. Qed.

Lemma no_occ_drop data sub off s :
  0 ≤ off ≤ len data → 0 ≤ s →
  no_occ (drop (Z.to_nat off) data) sub s ↔ no_occ data sub (off + s).
Proof.
  intros Hoff Hs. unfold no_occ. rewrite len_drop by done. split.
  - intros Hno i Hi Ho. apply (Hno (i - off)); [lia |].
    apply occurs_drop_2; [lia | lia |]. by replace (off + (i - off)) with i by lia.
  - intros Hno i Hi Ho. apply (Hno (off + i)); [lia |].
    apply occurs_drop_1 in Ho; [done | lia | lia].
Qed.

Lemma first_occ_drop data sub off s r :
  0 ≤ off ≤ len data → 0 ≤ s →
  first_occ (drop (Z.to_nat off) data) sub s r ↔ first_occ data sub (off + s) (off + r).
Proof.
  intros Hoff Hs. unfold first_occ. rewrite len_drop by done. split.
  - intros (Hr & Ho & Hmin). repeat split; [lia | lia | |].
    + apply occurs_drop_1 in Ho; [done | lia | lia].
    + intros i Hi Hoi. apply (Hmin (i - off)); [lia |].
      apply occurs_drop_2; [lia | lia |]. by replace (off + (i - off)) with i by lia.
  - intros (Hr & Ho & Hmin). repeat split; [lia | lia | |].
    + apply occurs_drop_2; [lia | lia | done].
    + intros i Hi Hoi. apply (Hmin (off + i)); [lia |].
      apply occurs_drop_1 in Hoi; [done | lia | lia].
Qed.

Lemma no_occ_drop_1 data sub off s :
  0 ≤ off ≤ len data → 0 ≤ s →
  no_occ (drop (Z.to_nat off) data) sub s → no_occ data sub (off + s).
Proof. intros. by apply no_occ_drop. Qed.

Lemma first_occ_drop_1 data sub off s r :
  0 ≤ off ≤ len data → 0 ≤ s →
  first_occ (drop (Z.to_nat off) data) sub s r → first_occ data sub (off + s) (off + r).
Proof. intros. by apply first_occ_drop. Qed.

Lemma slice_drop data off lo hi :
  0 ≤ off ≤ len data → 0 ≤ lo ≤ hi → hi ≤ len data - off →
  slice (drop (Z.to_nat off) data) lo hi = slice data (off + lo) (off + hi).
Proof.
  intros Hoff Hlo Hhi.
  rewrite !slice_inside by (rewrite ?len_drop; lia).
  rewrite drop_drop. f_equal; [lia |]. f_equal. lia.
Qed.

Lemma getfield_shift data field off :
  0 ≤ off ≤ len data →
  getfield data field off = shift off <$> getfield (drop (Z.to_nat off) data) field 0.
Proof.
  intros Hoff. apply getfield_by_spec. rewrite adjust_start_id by lia.
  pose proof (getfield_sound (drop (Z.to_nat off) data) field 0) as Hspec.
  rewrite adjust_start_id in Hspec by lia.
  pose proof (len_nonneg field) as Hf.
  destruct Hspec as [Hno | fs Hfs Hnull | fs Hfs Hnn Hnq | fs vs Hfs Hnn Hvs Hnq
                    | fs vs ve Hfs Hnn Hvs Hve]; cbn [fmap option_fmap option_map].
  - apply field_absent. apply no_occ_drop_1 in Hno; [| done | lia].
    by rewrite Z.add_0_r in Hno.
  - pose proof (first_occ_nonneg _ _ _ _ (Z.le_refl 0) Hfs) as Hfs0.
    apply first_occ_drop_1 in Hfs; [| done | lia]. rewrite Z.add_0_r in Hfs.
    apply (field_null _ _ _ (off + fs)); [done |].
    apply occurs_drop_1 in Hnull; [| lia | lia].
    by replace (off + fs + len field) with (off + (fs + len field)) by lia.
  - pose proof (first_occ_nonneg _ _ _ _ (Z.le_refl 0) Hfs) as Hfs0.
    apply first_occ_drop_1 in Hfs; [| done | lia]. rewrite Z.add_0_r in Hfs.
    apply (field_unquoted _ _ _ (off + fs)); [done | |].
    + intros Ho. apply Hnn. apply occurs_drop_2; [lia | lia |].
      by replace (off + (fs + len field)) with (off + fs + len field) by lia.
    + apply no_occ_drop_1 in Hnq; [| done | lia].
      by replace (off + fs + len field) with (off + (fs + len field)) by lia.
  - pose proof (first_occ_nonneg _ _ _ _ (Z.le_refl 0) Hfs) as Hfs0.
    assert (0 ≤ vs) as Hvs0 by (eapply first_occ_nonneg; [| exact Hvs]; lia).
    apply first_occ_drop_1 in Hfs; [| done | lia]. rewrite Z.add_0_r in Hfs.
    apply first_occ_drop_1 in Hvs; [| done | lia].
    apply (field_unclosed _ _ _ (off + fs) (off + vs)); [done | | |].
    + intros Ho. apply Hnn. apply occurs_drop_2; [lia | lia |].
      by replace (off + (fs + len field)) with (off + fs + len field) by lia.
    + by replace (off + fs + len field) with (off + (fs + len field)) by lia.
    + apply no_occ_drop_1 in Hnq; [| done | lia].
      by replace (off + vs + 1) with (off + (vs + 1)) by lia.
  - pose proof (first_occ_nonneg _ _ _ _ (Z.le_refl 0) Hfs) as Hfs0.
    assert (0 ≤ vs) as Hvs0 by (eapply first_occ_nonneg; [| exact Hvs]; lia).
    assert (vs + 1 ≤ ve ≤ len data - off - 1) as Hve0.
    { destruct Hve as [Hve _]. rewrite len_drop in Hve by done.
      change (len [dquote]) with 1 in Hve. lia. }
    apply first_occ_drop_1 in Hfs; [| done | lia]. rewrite Z.add_0_r in Hfs.
    apply first_occ_drop_1 in Hvs; [| done | lia].
    apply first_occ_drop_1 in Hve; [| done | lia].
    unfold shift; cbn [fst snd]. rewrite slice_drop by lia.
    replace (off + (vs + 1)) with (off + vs + 1) in * by lia.
    replace (ve + 1 + off) with (off + ve + 1) by lia.
    apply (field_value _ _ _ (off + fs) (off + vs) (off + ve)); [done | | | done].
    + intros Ho. apply Hnn. apply occurs_drop_2; [lia | lia |].
      by replace (off + (fs + len field)) with (off + fs + len field) by lia.
    + by replace (off + fs + len field) with (off + (fs + len field)) by lia.
Qed.

(** X1: scanning from an offset inside the buffer is scanning the rest of
    the buffer from its start: the value is the same and the returned
    offset is moved by the offset given. *)
Theorem getfield_from_offset data field off :
  0 ≤ off ≤ len data →
  getfield data field off = shift off <$> getfield (drop (Z.to_nat off) data) field 0.
Proof. apply getfield_shift. Qed.

Lemma getfield_from_offset_witness :
  getfield two_tags name_label 44
  = shift 44 <$> getfield (drop (Z.to_nat 44) two_tags) name_label 0.
Proof. apply (getfield_from_offset two_tags name_label 44). by vm_compute. Defined.

(** ** Rendered name fields *)

Lemma occurs_app_here (pre sub rest : bytes) : occurs (pre ++ sub ++ rest) sub (len pre).
Proof.
  unfold occurs, len. rewrite Nat2Z.id, drop_app_length.
  apply starts_with_prefix. by exists rest.
Qed.

Lemma occurs_app_inv (front rest sub : bytes) i :
  0 ≤ i → i + len sub ≤ len front →
  occurs (front ++ rest) sub i → occurs front sub i.
Proof.
  unfold occurs, len. intros Hi Hlen [k Hk]%starts_with_prefix.
  apply starts_with_prefix. rewrite drop_app_le in Hk by lia.
  apply (f_equal (take (length sub))) in Hk.
  rewrite take_app_le, take_app_length in Hk by (rewrite length_drop; lia).
  rewrite <- Hk. apply prefix_take.
Qed.

Lemma occurs_first_byte (data sub : bytes) x i :
  0 ≤ i → occurs data (x :: sub) i → data !! Z.to_nat i = Some x.
Proof.
  intros Hi [k Hk]%starts_with_prefix.
  apply (f_equal (λ l, l !! 0%nat)) in Hk. rewrite lookup_drop in Hk.
  by rewrite Nat.add_0_r in Hk.
Qed.

Lemma getfield_rendered pre field v post :
  label_free pre field → dquote ∉ v →
  getfield (pre ++ field ++ [dquote] ++ v ++ [dquote] ++ post) field 0
  = Some (v, len pre + len field + len v + 2).
Proof.
  intros Hfree Hv.
  set (data := pre ++ field ++ [dquote] ++ v ++ [dquote] ++ post).
  assert (len data = len pre + len field + len v + 2 + len post) as Hlen.
  { unfold data, len. rewrite !length_app. simpl. lia. }
  pose proof (len_nonneg pre). pose proof (len_nonneg field).
  pose proof (len_nonneg v). pose proof (len_nonneg post).
  assert (∀ k : nat, (k < length v)%nat →
            data !! (length pre + length field + 1 + k)%nat = v !! k) as Hin.
  { intros k Hk. unfold data.
    rewrite lookup_app_r by lia. rewrite lookup_app_r by lia.
    replace (length pre + length field + 1 + k - length pre - length field)%nat
      with (S k) by lia.
    simpl. by rewrite lookup_app_l by lia. }
  assert (data !! (length pre + length field)%nat = Some dquote) as Hopen.
  { unfold data. rewrite lookup_app_r by lia. rewrite lookup_app_r by lia.
    by replace (length pre + length field - length pre - length field)%nat
      with 0%nat by lia. }
  assert (data !! (length pre + length field + 1 + length v)%nat = Some dquote) as Hclose.
  { unfold data. rewrite lookup_app_r by lia. rewrite lookup_app_r by lia.
    replace (length pre + length field + 1 + length v - length pre - length field)%nat
      with (S (length v)) by lia.
    simpl. rewrite lookup_app_r by lia. by rewrite Nat.sub_diag. }
  apply getfield_by_spec. change (adjust_start (len data) 0) with 0.
  assert (slice data (len pre + len field + 1) (len pre + len field + 1 + len v) = v)
    as Hslice.
  { rewrite slice_inside by lia.
      replace (Z.to_nat (len pre + len field + 1))
        with (length pre + (length field + 1))%nat by (unfold len; lia).
      replace (Z.to_nat (len pre + len field + 1 + len v - (len pre + len field + 1)))
        with (length v) by (unfold len; lia).
      unfold data. rewrite drop_app_add.
      replace (field ++ [dquote] ++ v ++ [dquote] ++ post)
        with ((field ++ [dquote]) ++ v ++ [dquote] ++ post) by (by rewrite <- app_assoc).
      rewrite drop_app_length' by (rewrite length_app; simpl; lia).
      apply take_app_length. }
  replace (len pre + len field + len v + 2) with (len pre + len field + 1 + len v + 1) by lia.
  rewrite <- Hslice at 1.
  apply (field_value _ _ _ (len pre) (len pre + len field) (len pre + len field + 1 + len v)).
  - repeat split; [lia | lia | apply occurs_app_here |].
    intros i Hi Ho. apply (Hfree i); [lia |].
    unfold data in Ho. rewrite app_assoc in Ho.
    apply occurs_app_inv in Ho; [done | lia |]. unfold len. rewrite length_app. unfold len in *. lia.
  - intros Ho. apply occurs_first_byte in Ho; [| lia].
    replace (Z.to_nat (len pre + len field)) with (length pre + length field)%nat
      in Ho by (unfold len; lia).
    rewrite Hopen in Ho. discriminate.
  - unfold first_occ. change (len [dquote]) with 1.
    repeat split; [lia | lia | | intros i Hi; lia].
    apply occurs_byte; [lia |].
    by replace (Z.to_nat (len pre + len field)) with (length pre + length field)%nat
      by (unfold len; lia).
  - unfold first_occ. change (len [dquote]) with 1. repeat split; [lia | lia | |].
    + apply occurs_byte; [lia |].
      by replace (Z.to_nat (len pre + len field + 1 + len v))
        with (length pre + length field + 1 + length v)%nat by (unfold len; lia).
    + intros i Hi Ho. apply occurs_byte in Ho; [| lia].
      replace (Z.to_nat i)
        with (length pre + length field + 1 + Z.to_nat (i - len pre - len field - 1))%nat
        in Ho by (unfold len in *; lia).
      rewrite Hin in Ho by (unfold len in *; lia).
      apply Hv. by apply list_elem_of_lookup_2 in Ho.
Qed.

(** X2: a buffer in which the label first stands after [pre] and is
    followed by a quoted value [v] without a double quote: [getfield] returns
    [v] and the index after the closing quote, whatever follows. *)
Theorem getfield_reads_rendered_value pre field v post :
  label_free pre field → dquote ∉ v →
  getfield (pre ++ field ++ [dquote] ++ v ++ [dquote] ++ post) field 0
  = Some (v, len pre + len field + len v + 2).
Proof. apply getfield_rendered. Qed.

Lemma getfield_reads_rendered_value_witness :
  getfield (b "{" ++ uri_label ++ [dquote] ++ b "https://a.b/1" ++ [dquote] ++ b ",'tags':[]}")
    uri_label 0
  = Some (b "https://a.b/1", len (b "{") + len uri_label + len (b "https://a.b/1") + 2).
Proof.
  apply (getfield_reads_rendered_value (b "{") uri_label (b "https://a.b/1")).
  - intros i Hi Ho. assert (i = 0) as -> by (change (len (b "{")) with 1 in Hi; lia).
    by vm_compute in Ho.
  - intros Hin. vm_compute in Hin.
    repeat (apply elem_of_cons in Hin as [Hin | Hin]; [discriminate |]).
    by apply elem_of_nil in Hin.
Defined.

Lemma label_freeb_correct pre field : label_freeb pre field = true → label_free pre field.
Proof.
  unfold label_freeb, label_free, occurs. intros Hall i Hi Ho.
  rewrite forallb_forall in Hall. specialize (Hall (Z.to_nat i)).
  rewrite Ho in Hall. unfold len in Hi.
  discriminate Hall. apply in_seq. lia.
Qed.

Lemma lacks_correct x l : lacks x l = true → x ∉ l.
Proof.
  unfold lacks. intros Hall Hin%list_elem_of_In.
  rewrite forallb_forall in Hall. specialize (Hall x Hin).
  by rewrite bool_decide_eq_true_2 in Hall.
Qed.

Section Names.
Context `{PyStr}.

Lemma followed_tags_loop_from_offset fuel :
  ∀ chunk off acc, 0 ≤ off ≤ len chunk →
    UserConnection.followed_tags_loop fuel chunk off acc
    = UserConnection.followed_tags_loop fuel (drop (Z.to_nat off) chunk) 0 acc.
Proof.
  induction fuel as [|fuel IH]; intros chunk off acc Hoff; [done |].
  cbn [UserConnection.followed_tags_loop].
  rewrite (getfield_shift chunk name_label off) by done.
  destruct (getfield (drop (Z.to_nat off) chunk) name_label 0) as [[v n] |] eqn:Hget;
    [| done].
  cbn [fmap option_fmap option_map shift fst snd].
  destruct (decode v) as [s |]; [| done].
  apply getfield_offsets in Hget. rewrite len_drop in Hget by done.
  pose proof (len_nonneg name_label).
  rewrite (IH chunk (n + off)) by lia.
  rewrite (IH (drop (Z.to_nat off) chunk) n) by (rewrite len_drop; lia).
  rewrite drop_drop. do 2 f_equal. lia.
Qed.

Lemma followed_tags_loop_rendered fields :
  ∀ tail names fuel acc,
    Forall (λ f, label_free f.1 name_label ∧ dquote ∉ f.2) fields →
    no_occ tail name_label 0 →
    Forall2 (λ f s, decode f.2 = Some s) fields names →
    (length fields < fuel)%nat →
    UserConnection.followed_tags_loop fuel (name_fields fields tail) 0 acc
    = Some (inl (list_to_set (lower <$> names) ∪ acc)).
Proof.
  induction fields as [|[pre v] fields IH]; intros tail names fuel acc Hok Htail Hdec Hfuel.
  - apply Forall2_nil_inv_l in Hdec as ->.
    destruct fuel as [|fuel]; [lia |]. cbn [UserConnection.followed_tags_loop name_fields].
    assert (getfield tail name_label 0 = None) as ->.
    { apply getfield_by_spec. by apply field_absent. }
    do 2 f_equal. set_solver.
  - apply Forall2_cons_inv_l in Hdec as (s & names' & Hs & Hdec & ->).
    apply Forall_cons in Hok as [[Hfree Hv] Hok]. simpl in Hfree, Hv, Hs.
    destruct fuel as [|fuel]; [simpl in Hfuel; lia |].
    cbn [UserConnection.followed_tags_loop name_fields].
    rewrite getfield_rendered by done. rewrite Hs.
    rewrite followed_tags_loop_from_offset.
    2:{ unfold len. rewrite !length_app. simpl. lia. }
    replace (drop _ _) with (name_fields fields tail).
    2:{ symmetry.
        replace (pre ++ name_label ++ [dquote] ++ v ++ [dquote] ++ name_fields fields tail)
          with ((pre ++ name_label ++ [dquote] ++ v ++ [dquote]) ++ name_fields fields tail)
          by (by rewrite <- !app_assoc).
        apply drop_app_length'. unfold len. rewrite !length_app. simpl. lia. }
    rewrite (IH tail names') by (done || simpl in Hfuel; lia).
    do 2 f_equal. rewrite fmap_cons. set_solver.
Qed.

(** X3: a first line made of name fields, each value without a double quote
    and readable by the codec, with no other place where the name label
    starts: the refresh replaces the agent's tags by the set of the
    lower-cased names. *)
Theorem refresh_reads_rendered_names fields tail names (self : UserConnection.t) :
  Forall (λ f, label_free f.1 name_label ∧ dquote ∉ f.2) fields →
  no_occ tail name_label 0 → tail ≠ [] →
  Forall2 (λ f s, decode f.2 = Some s) fields names →
  UserConnection.update_tags_round (S (length fields))
    (UserConnection.FirstLine (name_fields fields tail)) self
  = Some (UserConnection.set_tags self (Some (list_to_set (lower <$> names))), None).
Proof.
  intros Hok Htail Hne Hdec.
  unfold UserConnection.update_tags_round, UserConnection.followed_tags.
  rewrite decide_False.
  2:{ unfold len. destruct fields as [|[pre v] fields]; simpl.
      - destruct tail; [done | simpl; lia].
      - rewrite !length_app. simpl. lia. }
  rewrite (followed_tags_loop_rendered fields tail names) by (done || lia).
  by rewrite (right_id_L ∅ (∪)).
Qed.
End Names.

Lemma refresh_reads_rendered_names_witness :
  UserConnection.update_tags_round (H := ascii_text) 3
    (UserConnection.FirstLine (b "[{'name':'Foo'},{'name':'bar'}]" ++ [x0a])) lapsed_agent
  = Some (UserConnection.set_tags lapsed_agent (Some (list_to_set [b "foo"; b "bar"])), None).
Proof.
  apply (refresh_reads_rendered_names (H := ascii_text)
           [(b "[{", b "Foo"); (b "},{", b "bar")] (b "}]" ++ [x0a]) [b "Foo"; b "bar"]).
  - repeat constructor; simpl;
      (by apply label_freeb_correct) || (by apply lacks_correct).
  - apply (proj1 (find_absent_iff (b "}]" ++ [x0a]) name_label 0)). by vm_compute.
  - discriminate.
  - by repeat constructor.
Defined.

(** ** When [getlist] returns *)

Lemma getlist_loop_total_from data list_end :
  ∀ fuel ptr items,
    0 ≤ ptr →
    (∀ e, ptr ≤ e → ¬ unterminated data list_end e) →
    Z.max 0 (adjust_end (len data) list_end - ptr) < Z.of_nat fuel →
    ∃ out, getlist_loop fuel data list_end ptr items = Some out.
Proof.
  intros fuel.
  induction fuel as [|fuel IH]; intros ptr items Hptr Hclosed Hfuel; [lia |].
  cbn [getlist_loop].
  destruct (find_in_window data (b "{") ptr list_end) as [[Hs _] | (Hs & Ho & _)];
    [lia | | ].
  { rewrite Hs, decide_True by done. by eexists. }
  set (s := find data (b "{") ptr (Some list_end)) in *.
  change (len (b "{")) with 1 in Hs.
  rewrite decide_False by lia.
  destruct (find_in_window data (b "}") (s + 1) list_end) as [[Hq _] | (Hq & _)];
    [lia | | ].
  { destruct (Hclosed s); [lia |]. repeat split; [lia | lia | done | done]. }
  change (len (b "}")) with 1 in Hq. apply IH; [lia | | lia].
  intros e He. apply Hclosed. lia.
Qed.

(** X4: once the label is found and the empty-list marker is not, [getlist]
    returns, within as many rounds as the buffer has bytes plus one, exactly
    when every entry opened in the window of the list is closed in it; when
    one is not, [getlist] returns for no number of rounds. *)
Theorem getlist_returns_iff data field :
  let field_start := find data field 0 None in
  let list_start := find data (b "[") (field_start + len field) None in
  let list_end := find data (b "]") (list_start + 1) None in
  field_start ≠ -1 →
  find data (b "[]") (field_start + len field) (Some (field_start + len field + 3)) = -1 →
  ((∃ items, getlist (S (length data)) data field = Some items) ↔
   (∀ e, list_start + 1 ≤ e → ¬ unterminated data list_end e)) ∧
  ((∃ e, list_start + 1 ≤ e ∧ unterminated data list_end e) →
   ∀ fuel, getlist fuel data field = None).
Proof.
  intros field_start list_start list_end Hfield Hempty.
  assert (∀ e, list_start + 1 ≤ e → unterminated data list_end e →
            ∀ fuel, getlist fuel data field = None) as Hstuck.
  { intros e He Hbad fuel. by apply (getlist_diverges fuel data field e). }
  split; [split |].
  - intros [items Hrun] e He Hbad. by rewrite (Hstuck e He Hbad) in Hrun.
  - intros Hclosed. unfold getlist. fold field_start.
    rewrite decide_False by done. rewrite Hempty, decide_False by (by intros ?).
    fold list_start list_end.
    pose proof (adjust_end_range (len data) list_end (len_nonneg data)).
    assert (0 ≤ list_start + 1).
    { unfold list_start.
      destruct (find_nonneg data (b "[") (field_start + len field) None); lia. }
    apply getlist_loop_total_from; [done | done | unfold len in *; lia].
  - intros (e & He & Hbad). by apply (Hstuck e).
Qed.

Lemma getlist_returns_iff_witness :
  let list_start := find unterminated_entry (b "[") (find unterminated_entry tags_label 0 None + len tags_label) None in
  let list_end := find unterminated_entry (b "]") (list_start + 1) None in
  ((∃ items, getlist (S (length unterminated_entry)) unterminated_entry tags_label = Some items) ↔
   (∀ e, list_start + 1 ≤ e → ¬ unterminated unterminated_entry list_end e)) ∧
  ((∃ e, list_start + 1 ≤ e ∧ unterminated unterminated_entry list_end e) →
   ∀ fuel, getlist fuel unterminated_entry tags_label = None).
Proof.
  apply (getlist_returns_iff unterminated_entry tags_label).
  - by vm_compute.
  - vm_compute. reflexivity.
Defined.

(** ** The items of [getlist] *)

(** X18: once the label is found and the empty-list marker is not, the list
    that [getlist] returns has exactly one item for each entry of the
    scanned window, in the order of the entries, each item being what
    [getfield] finds for the name label inside its entry.  The window runs
    from just after the opening bracket to the closing bracket; an entry
    runs from the first opening brace to the first closing brace after it.
    Conversely [getlist] returns that list within one round for each entry
    and one more, and the entries of a window are unique. *)
Theorem getlist_items_are_the_window_entries data field :
  let field_start := find data field 0 None in
  let list_start := find data (b "[") (field_start + len field) None in
  let list_end := find data (b "]") (list_start + 1) None in
  let stop := adjust_end (len data) list_end in
  field_start ≠ -1 →
  find data (b "[]") (field_start + len field) (Some (field_start + len field + 3)) = -1 →
  (∀ fuel items,
     getlist fuel data field = Some items →
     ∃ entries, window_entries data stop (list_start + 1) entries ∧
                items = entry_name data <$> entries) ∧
  (∀ entries fuel,
     window_entries data stop (list_start + 1) entries →
     (length entries < fuel)%nat →
     getlist fuel data field = Some (entry_name data <$> entries)) ∧
  (∀ entries entries',
     window_entries data stop (list_start + 1) entries →
     window_entries data stop (list_start + 1) entries' → entries = entries').
Proof.
  intros field_start list_start list_end stop Hfield Hempty.
  assert (0 ≤ list_start + 1) as Hstart.
  { unfold list_start.
    destruct (find_nonneg data (b "[") (field_start + len field) None); lia. }
  assert (∀ fuel, getlist fuel data field
                  = getlist_loop fuel data list_end (list_start + 1) []) as Hloop.
  { intros fuel. unfold getlist. fold field_start.
    rewrite decide_False by done. by rewrite Hempty, decide_False by (by intros ?). }
  split; [| split].
  - intros fuel items Hrun. rewrite Hloop in Hrun.
    by apply getlist_loop_window in Hrun.
  - intros entries fuel Hent Hfuel. rewrite Hloop.
    by rewrite (getlist_loop_reads_window data list_end (list_start + 1) entries).
  - intros entries entries' Hent Hent'. by eapply window_entries_unique.
Qed.

Lemma getlist_items_are_the_window_entries_witness :
  (∀ fuel items,
     getlist fuel two_tags tags_label = Some items →
     ∃ entries, window_entries two_tags 60 31 entries ∧
                items = entry_name two_tags <$> entries) ∧
  (∀ entries fuel,
     window_entries two_tags 60 31 entries →
     (length entries < fuel)%nat →
     getlist fuel two_tags tags_label = Some (entry_name two_tags <$> entries)) ∧
  (∀ entries entries',
     window_entries two_tags 60 31 entries →
     window_entries two_tags 60 31 entries' → entries = entries').
Proof.
  apply (getlist_items_are_the_window_entries two_tags tags_label).
  - by vm_compute.
  - vm_compute. reflexivity.
Defined.

(** ** What a call does to the agents and to the counters *)

Section MoreIngest.
Context `{PyStr}.

Lemma agent_step_refl url u : agent_step url u u.
Proof. repeat split. by left. Qed.

Lemma route_agent_steps post_tags url us :
  Forall2 (agent_step (Some url)) us (route post_tags url us).1.
Proof.
  induction us as [|u us IH]; [constructor |].
  cbn [route]. unfold UserConnection.queue_post.
  destruct (UserConnection.tags u) as [own |] eqn:Hown.
  - case_decide.
    + destruct (decode url).
      * destruct (route post_tags url us) as [us' r]. simpl in *.
        constructor; [| done]. repeat split. right. by exists url.
      * simpl. constructor; [apply agent_step_refl |].
        apply Forall_Forall2_diag, Forall_forall. intros; apply agent_step_refl.
    + destruct (route post_tags url us) as [us' r]. simpl in *.
      constructor; [apply agent_step_refl | done].
  - simpl. constructor; [apply agent_step_refl |].
    apply Forall_Forall2_diag, Forall_forall. intros; apply agent_step_refl.
Qed.

(** The two ways a call leaves the counters and the agents. *)
Lemma process_update_effects fuel data st :
  let st' := (process_update fuel data st).1 in
  (post_count st' = post_count st ∧ servers st' = servers st ∧
   total st' = total st ∧ users st' = users st) ∨
  (∃ url n,
      getfield data uri_label 0 = Some (url, n) ∧ posts st !! url = None ∧
      post_count st' = post_count st + 1 ∧
      servers st' = count_server (server_of url) (servers st) ∧
      total st' = total st + 1 ∧
      Forall2 (agent_step (Some url)) (users st) (users st')).
Proof.
  unfold process_update.
  destruct (getfield data uri_label 0) as [[url n] |]; [| by left].
  case_decide as Hin; [by left |].
  destruct (evict _ _) as [[order cache] [e |]]; [by left |].
  right. exists url, n. split; [done |]. split.
  { destruct (posts st !! url) eqn:Hp; [| done]. destruct Hin. by eexists. }
  destruct (getlist fuel data tags_label) as [items |].
  2:{ simpl. repeat split; try done.
      apply Forall_Forall2_diag, Forall_forall. intros; apply agent_step_refl. }
  destruct (decode_tags items) as [l | e].
  2:{ simpl. repeat split; try done.
      apply Forall_Forall2_diag, Forall_forall. intros; apply agent_step_refl. }
  case_decide.
  2:{ simpl. repeat split; try done.
      apply Forall_Forall2_diag, Forall_forall. intros; apply agent_step_refl. }
  pose proof (route_agent_steps (list_to_set l) url (users st)) as Hroute.
  destruct (route _ _ _) as [us r]. simpl in *. by repeat split.
Qed.

Lemma process_update_agent_steps fuel data st :
  Forall2 (agent_step (fst <$> getfield data uri_label 0))
    (users st) (users (process_update fuel data st).1).
Proof.
  destruct (process_update_effects fuel data st)
    as [(_ & _ & _ & ->) | (url & n & -> & _ & _ & _ & _ & Hus)]; [| done].
  apply Forall_Forall2_diag, Forall_forall. intros; apply agent_step_refl.
Qed.

(** X5: whatever the payload and the state, a call leaves every agent's
    server, token and tags as they are, drops no agent, and changes a queue
    only by appending the id of the payload, once. *)
Theorem process_update_only_appends fuel data st :
  Forall2 (agent_step (fst <$> getfield data uri_label 0))
    (users st) (users (process_update fuel data st).1).
Proof. apply process_update_agent_steps. Qed.

Lemma count_sum_insert (m : gmap bytes Z) (k : bytes) (c : Z) :
  m !! k = None → count_sum (<[k := c]> m) = c + count_sum m.
Proof.
  intros Hk. unfold count_sum. rewrite map_fold_insert_L; [done | | done].
  intros. lia.
Qed.

Lemma count_sum_count_server (server : bytes) (m : gmap bytes Z) :
  count_sum (count_server server m) = count_sum m + 1.
Proof.
  unfold count_server. destruct (m !! server) as [c |] eqn:Hc.
  - rewrite <- insert_delete_eq, count_sum_insert by apply lookup_delete_eq.
    unfold count_sum at 2.
    rewrite (map_fold_delete_L _ _ server c m); [| intros; lia | done].
    fold (count_sum (delete server m)). lia.
  - rewrite count_sum_insert by done. lia.
Qed.

Lemma stats_inv_initial us : stats_inv (initial us).
Proof.
  split; simpl; [| apply map_Forall_empty | done].
  unfold count_sum. by rewrite map_fold_empty.
Qed.

Lemma process_update_stats fuel data st :
  stats_inv st → stats_inv (process_update fuel data st).1.
Proof.
  intros [Hsum Hpos Htotal].
  destruct (process_update_effects fuel data st)
    as [(Hc & Hs & Ht & _) | (url & n & _ & _ & Hc & Hs & Ht & _)].
  - split; by rewrite ?Hc, ?Hs, ?Ht.
  - split; rewrite ?Hc, ?Hs, ?Ht.
    + rewrite count_sum_count_server. lia.
    + unfold count_server. destruct (servers st !! server_of url) as [c |] eqn:Hlook.
      * apply map_Forall_insert_2; [| done]. specialize (Hpos _ _ Hlook). simpl in Hpos. lia.
      * apply map_Forall_insert_2; [lia | done].
    + lia.
Qed.

Lemma top_servers_effects st :
  (top_servers st).1.1 = st ∧ is_Some (top_servers st).2 ∨
  (top_servers st).2 = None ∧
  post_count (top_servers st).1.1 = 0 ∧ servers (top_servers st).1.1 = ∅ ∧
  total (top_servers st).1.1 = total st ∧ posts (top_servers st).1.1 = posts st ∧
  posts_order (top_servers st).1.1 = posts_order st ∧
  users (top_servers st).1.1 = users st.
Proof.
  unfold top_servers. destruct (print_rows _) as [printed [e |]]; simpl.
  - left. split; [done | by eexists].
  - by right.
Qed.
End MoreIngest.

(** ** Runs *)

Section RunInvariants.
Context `{PyStr}.

Lemma act_cache_inv st a : cache_inv st → cache_inv (act st a).
Proof.
  intros Hinv. destruct a as [fuel data | | i fuel r | i]; simpl.
  - by apply process_update_inv.
  - destruct (top_servers_effects st) as [[-> _] | (_ & _ & _ & _ & Hp & Ho & _)]; [done |].
    destruct Hinv as [Hdom Hsize Hbound Hnd]. split; by rewrite ?Hp, ?Ho.
  - by destruct Hinv.
  - by destruct Hinv.
Qed.

Lemma act_stats_inv st a : stats_inv st → stats_inv (act st a).
Proof.
  intros Hinv. destruct a as [fuel data | | i fuel r | i]; simpl.
  - by apply process_update_stats.
  - destruct (top_servers_effects st) as [[-> _] | (_ & Hc & Hs & Ht & _)]; [done |].
    destruct Hinv as [Hsum Hpos Htotal]. split; rewrite ?Hc, ?Hs, ?Ht.
    + unfold count_sum. by rewrite map_fold_empty.
    + apply map_Forall_empty.
    + rewrite Hsum in Htotal. clear Hsum.
      assert (0 ≤ count_sum (servers st)); [| lia].
      unfold count_sum.
      apply (map_fold_weak_ind (λ r m, map_Forall (λ _ c, 1 ≤ c) m → 0 ≤ r)); [done | | done].
      intros k c m r Hk IH Hall. apply map_Forall_insert in Hall as [Hc' Hall]; [| done].
      specialize (IH Hall). lia.
  - by destruct Hinv.
  - by destruct Hinv.
Qed.

Lemma act_agents st a :
  Forall2 (λ u u', UserConnection.server u' = UserConnection.server u ∧
                   UserConnection.user_token u' = UserConnection.user_token u)
    (users st) (users (act st a)).
Proof.
  assert (∀ f i (us : list UserConnection.t),
            (∀ u, UserConnection.server (f u) = UserConnection.server u ∧
                  UserConnection.user_token (f u) = UserConnection.user_token u) →
            Forall2 (λ u u', UserConnection.server u' = UserConnection.server u ∧
                             UserConnection.user_token u' = UserConnection.user_token u)
              us (alter f i us)) as Halter.
  { intros f i us Hf. revert i. induction us as [|u us IH]; intros i; [constructor |].
    destruct i as [|i]; simpl.
    - constructor; [apply Hf |]. by apply Forall_Forall2_diag, Forall_forall.
    - constructor; [done | apply IH]. }
  destruct a as [fuel data | | i fuel r | i]; simpl.
  - eapply Forall2_impl; [apply process_update_agent_steps |].
    by intros u u' (? & ? & _).
  - destruct (top_servers_effects st) as [[-> _] | (_ & _ & _ & _ & _ & _ & ->)];
      by apply Forall_Forall2_diag, Forall_forall.
  - apply Halter. intros u. unfold refresh_agent, UserConnection.update_tags_round.
    by destruct (UserConnection.followed_tags fuel r) as [[v | e] |].
  - apply Halter. intros u. unfold send_agent, send_next.
    by destruct (UserConnection.posts u).
Qed.

(** X6: in every state that the steps of the program reach from the state
    at start-up, the cache invariant holds, [post_count] is the sum of the
    counts of [servers], each of them at least one, [total] is at least
    [post_count], and the agents are the agents registered at start-up, with
    their servers and tokens. *)
Theorem reachable_states_keep_invariants us actions :
  let st := run actions (initial us) in
  cache_inv st ∧ stats_inv st ∧
  Forall2 (λ u u', UserConnection.server u' = UserConnection.server u ∧
                   UserConnection.user_token u' = UserConnection.user_token u)
    us (users st).
Proof.
  unfold run.
  induction actions as [|a actions IH] using rev_ind.
  - split; [apply cache_inv_initial |]. split; [apply stats_inv_initial |].
    by apply Forall_Forall2_diag, Forall_forall.
  - rewrite foldl_app. simpl. destruct IH as (Hc & Hs & Hu).
    split; [by apply act_cache_inv |]. split; [by apply act_stats_inv |].
    eapply Forall2_trans; [| exact Hu | apply act_agents].
    intros u1 u2 u3 [Hs1 Ht1] [Hs2 Ht2]. by rewrite Hs2, Ht2.
Qed.
End RunInvariants.

(** ** Fresh ids *)

Section Fresh.
Context `{PyStr}.

Lemma fan_out_counters fuel data url st2 :
  post_count (fan_out fuel data url st2).1 = post_count st2 ∧
  servers (fan_out fuel data url st2).1 = servers st2 ∧
  total (fan_out fuel data url st2).1 = total st2.
Proof.
  unfold fan_out. destruct (getlist fuel data tags_label) as [items |]; [| done].
  destruct (decode_tags items) as [l | e]; [| done].
  case_decide; [| done]. by destruct (route _ _ _).
Qed.

Lemma process_update_fresh_counts fuel data st url n :
  cache_inv st →
  getfield data uri_label 0 = Some (url, n) → posts st !! url = None →
  let st' := (process_update fuel data st).1 in
  total st' = total st + 1 ∧ post_count st' = post_count st + 1 ∧
  servers st' = count_server (server_of url) (servers st) ∧
  posts st' !! url = Some (url, []) ∧
  posts_order st' = keep_last (posts_order st ++ [url]).
Proof.
  intros Hinv Hget Hnew st'. subst st'.
  destruct (process_update_fresh fuel data st url n Hinv Hget Hnew)
    as (cache & _ & Hin & ->).
  destruct (fan_out_counters fuel data url (counted st cache url)) as (-> & -> & ->).
  destruct (fan_out_cache fuel data url (counted st cache url)) as [-> ->].
  done.
Qed.

(** X7: in a state that satisfies the cache invariant a call leaves the
    state as it is exactly when the payload has no [uri] value or its id is
    in the cache. *)
Theorem process_update_unchanged_iff fuel data st :
  cache_inv st →
  (process_update fuel data st).1 = st ↔
  ∀ url n, getfield data uri_label 0 = Some (url, n) → is_Some (posts st !! url).
Proof.
  intros Hinv. split.
  - intros Hsame url n Hget. destruct (posts st !! url) as [v |] eqn:Hurl; [by eexists |].
    destruct (process_update_fresh_counts fuel data st url n Hinv Hget Hurl) as [Ht _].
    rewrite Hsame in Ht. lia.
  - intros Hcached. destruct (getfield data uri_label 0) as [[url n] |] eqn:Hget.
    + by rewrite (process_update_duplicate fuel data st url n) by eauto.
    + by rewrite process_update_no_uri.
Qed.

Lemma decode_tags_error items :
  (∃ e, decode_tags items = inr e) ↔
  ∃ item, item ∈ items ∧ (item = None ∨ ∃ t, item = Some t ∧ decode t = None).
Proof.
  induction items as [|[t |] items IH]; simpl.
  - split; [by intros [e ?] | by intros (item & ?%elem_of_nil & _)].
  - destruct (decode t) as [s |] eqn:Hs.
    + destruct (decode_tags items) as [l | e].
      * split; [by intros [e ?] |].
        intros (item & [-> | Hin]%elem_of_cons & Hbad).
        -- destruct Hbad as [? | (t' & [= <-] & ?)]; congruence.
        -- destruct (proj2 IH) as [e ?]; [by exists item | done].
      * split; [| by eexists]. intros _.
        destruct (proj1 IH) as (item & Hin & Hbad); [by eexists |].
        exists item. split; [by right | done].
    + split; [| by eexists]. intros _. exists (Some t).
      split; [by left | right; by exists t].
  - split; [| by eexists]. intros _. exists None. split; [by left | by left].
Qed.

(** X8: a payload with a fresh id one of whose tag entries has no name, or a
    name that does not decode: the call ends in the [except] branch, no agent
    is offered the post, whatever its other tags are, and the id is cached
    and counted all the same. *)
Theorem bad_tag_entry_is_counted_not_routed fuel data st url n items item :
  cache_inv st →
  getfield data uri_label 0 = Some (url, n) → posts st !! url = None →
  getlist fuel data tags_label = Some items →
  item ∈ items → item = None ∨ (∃ t, item = Some t ∧ decode t = None) →
  let st' := (process_update fuel data st).1 in
  (∃ e, (process_update fuel data st).2 = Caught e) ∧
  users st' = users st ∧
  posts st' !! url = Some (url, []) ∧
  total st' = total st + 1 ∧ post_count st' = post_count st + 1.
Proof.
  intros Hinv Hget Hnew Hlist Hin Hbad st'. subst st'.
  destruct (proj2 (decode_tags_error items)) as [e He]; [by exists item |].
  destruct (process_update_fresh_counts fuel data st url n Hinv Hget Hnew)
    as (Ht & Hc & _ & Hp & _).
  rewrite Ht, Hc, Hp.
  destruct (process_update_fresh fuel data st url n Hinv Hget Hnew)
    as (cache & _ & _ & ->).
  unfold fan_out. rewrite Hlist, He. simpl. split; [by exists e | done].
Qed.
End Fresh.

Lemma process_update_unchanged_iff_witness :
  (process_update (H := ascii_text) 0 number_valued (initial three_agents)).1
    = initial three_agents ↔
  ∀ url n, getfield number_valued uri_label 0 = Some (url, n) →
           is_Some (posts (initial (H := ascii_text) three_agents) !! url).
Proof.
  apply (process_update_unchanged_iff (H := ascii_text)). apply cache_inv_initial.
Defined.

Lemma bad_tag_entry_is_counted_not_routed_witness :
  let st := initial (H := ascii_text) three_agents in
  let st' := (process_update 5 half_named st).1 in
  (∃ e, (process_update 5 half_named st).2 = Caught e) ∧
  users st' = users st ∧
  posts st' !! b "https://a.b/1" = Some (b "https://a.b/1", []) ∧
  total st' = total st + 1 ∧ post_count st' = post_count st + 1.
Proof.
  apply (bad_tag_entry_is_counted_not_routed (H := ascii_text) 5 half_named
           (initial three_agents) (b "https://a.b/1") 22 [Some (b "b"); None] None).
  - apply cache_inv_initial.
  - vm_compute. reflexivity.
  - reflexivity.
  - vm_compute. reflexivity.
  - set_solver.
  - by left.
Defined.

(** ** Sequences of fresh ids *)

Section Sequences.
Context `{PyStr}.

Lemma process_updates_counts fuel datas :
  ∀ ids st,
    cache_inv st → uris datas = Some <$> ids →
    NoDup (posts_order st ++ ids) →
    (process_updates fuel datas st).2 = true →
    total (process_updates fuel datas st).1 = total st + len ids ∧
    post_count (process_updates fuel datas st).1 = post_count st + len ids.
Proof.
  induction datas as [|data datas IH]; intros ids st Hinv Huris Hnd Hret.
  { destruct ids; [| done]. simpl. unfold len. simpl. lia. }
  destruct ids as [|id ids]; [done |].
  injection Huris as Hid Huris.
  destruct (getfield data uri_label 0) as [[url n] |] eqn:Hget; [| done].
  injection Hid as ->.
  assert (posts st !! id = None) as Hnew.
  { apply (not_elem_of_dom (posts st)). rewrite (cache_dom _ Hinv).
    apply NoDup_app in Hnd as (_ & Hnd & _). set_solver. }
  pose proof (process_update_inv fuel data st Hinv) as Hinv1.
  destruct (process_update_fresh_counts fuel data st id n Hinv Hget Hnew)
    as (Ht & Hc & _ & _ & Ho).
  cbn [process_updates] in *.
  destruct (process_update fuel data st) as [st1 o] eqn:Hpu. simpl in Ho, Hinv1, Ht, Hc.
  assert (NoDup (posts_order st1 ++ ids)) as Hnd1.
  { eapply sublist_NoDup; [exact Hnd |]. rewrite Ho.
    replace (posts_order st ++ id :: ids) with ((posts_order st ++ [id]) ++ ids)
      by (by rewrite <- app_assoc).
    apply sublist_app; [unfold keep_last; apply sublist_drop | done]. }
  assert (len (id :: ids) = len ids + 1) as -> by (unfold len; simpl; lia).
  destruct o; [| | done];
    destruct (IH ids st1 Hinv1 Huris Hnd1 Hret) as [-> ->]; lia.
Qed.

(** X9: calls for payloads with distinct ids, none of them cached, count
    every one of them in [total] and [post_count], whether the call returns
    or ends in the [except] branch, as long as none of them hangs. *)
Theorem fresh_posts_are_all_counted fuel datas ids st :
  cache_inv st → uris datas = Some <$> ids →
  NoDup (posts_order st ++ ids) →
  (process_updates fuel datas st).2 = true →
  total (process_updates fuel datas st).1 = total st + len ids ∧
  post_count (process_updates fuel datas st).1 = post_count st + len ids.
Proof. apply process_updates_counts. Qed.

(** X10: after the calls for more than 1000 distinct ids, the ids that are
    not among the last 1000 are no longer in the cache, and a payload with
    such an id is counted again; a payload with one of the last 1000 ids
    leaves the state as it is. *)
Theorem evicted_id_is_new_again fuel us datas ids :
  uris datas = Some <$> ids → NoDup ids →
  DUPLICATE_HISTORY_LENGTH < len ids →
  (process_updates fuel datas (initial us)).2 = true →
  let st' := (process_updates fuel datas (initial us)).1 in
  ∀ (i : nat) id data n fuel',
    ids !! i = Some id → getfield data uri_label 0 = Some (id, n) →
    if decide (i < length ids - 1000)%nat
    then posts st' !! id = None ∧
         total (process_update fuel' data st').1 = total st' + 1
    else process_update fuel' data st' = (st', Returned).
Proof.
  intros Huris Hnd Hlen Hret st' i id data n fuel' Hi Hget.
  destruct (process_updates_fifo fuel datas ids (initial us)) as [Hinv Ho];
    [apply cache_inv_initial | done | done | done |].
  fold st' in Hinv, Ho. simpl in Ho. unfold keep_last in Ho.
  change (Z.to_nat DUPLICATE_HISTORY_LENGTH) with 1000%nat in Ho.
  case_decide as Hold.
  - assert (posts st' !! id = None) as Hnew.
    { apply (not_elem_of_dom (posts st')). rewrite (cache_dom _ Hinv), Ho.
      intros (j & Hj)%elem_of_list_to_set%list_elem_of_lookup.
      rewrite lookup_drop in Hj.
      pose proof (NoDup_lookup _ _ _ _ Hnd Hi Hj). lia. }
    split; [done |].
    by destruct (process_update_fresh_counts fuel' data st' id n Hinv Hget Hnew) as [-> _].
  - apply (process_update_duplicate fuel' data st' id n Hget).
    apply elem_of_dom. rewrite (cache_dom _ Hinv), Ho.
    apply elem_of_list_to_set, list_elem_of_lookup.
    exists (i - (length ids - 1000))%nat. rewrite lookup_drop. rewrite <- Hi. f_equal. lia.
Qed.
End Sequences.

Lemma fresh_posts_are_all_counted_witness :
  let datas := numbered_payload <$> seq 0 1003 in
  let ids := numbered_uri <$> seq 0 1003 in
  let st := initial (H := ascii_text) [] in
  total (process_updates 0 datas st).1 = total st + len ids ∧
  post_count (process_updates 0 datas st).1 = post_count st + len ids.
Proof.
  intros datas ids st.
  apply (fresh_posts_are_all_counted (H := ascii_text) 0%nat datas ids st).
  - apply cache_inv_initial.
  - vm_compute. reflexivity.
  - apply distinct_NoDup. vm_compute. reflexivity.
  - vm_compute. reflexivity.
Defined.

Lemma evicted_id_is_new_again_witness :
  let datas := numbered_payload <$> seq 0 1003 in
  let st' := (process_updates (H := ascii_text) 0 datas (initial [])).1 in
  posts st' !! numbered_uri 0 = None ∧
  total (process_update 0 (numbered_payload 0) st').1 = total st' + 1.
Proof.
  intros datas st'.
  pose proof (evicted_id_is_new_again (H := ascii_text) 0%nat [] datas
                (numbered_uri <$> seq 0 1003)) as Hthm.
  specialize (Hthm ltac:(vm_compute; reflexivity)).
  specialize (Hthm ltac:(apply distinct_NoDup; vm_compute; reflexivity)).
  specialize (Hthm ltac:(vm_compute; reflexivity)).
  specialize (Hthm ltac:(vm_compute; reflexivity)).
  specialize (Hthm 0%nat (numbered_uri 0) (numbered_payload 0) 25 0%nat).
  specialize (Hthm ltac:(reflexivity)).
  specialize (Hthm ltac:(vm_compute; reflexivity)).
  rewrite decide_True in Hthm; [exact Hthm |].
  rewrite length_fmap, length_seq. lia.
Defined.

(** ** The stream worker *)

Section StreamProperties.
Context `{PyStr}.

Lemma process_update_total fuel data st :
  total st ≤ total (process_update fuel data st).1 ≤ total st + 1.
Proof.
  destruct (process_update_effects fuel data st)
    as [(_ & _ & -> & _) | (url & n & _ & _ & _ & _ & -> & _)]; lia.
Qed.

Lemma update_events_cons chunk chunks :
  update_events (chunk :: chunks)
  = ((if decide (chunk = update_event) then 1 else 0) + update_events chunks)%nat.
Proof. unfold update_events. rewrite filter_cons. by case_decide. Qed.

Lemma read_chunks_total fuel chunks :
  ∀ g st,
    total st ≤ total (read_chunks fuel chunks g st).1.2
    ≤ total st + Z.of_nat (update_events chunks) + (if g then 1 else 0).
Proof.
  induction chunks as [|chunk chunks IH]; intros g st.
  { simpl. destruct g; lia. }
  cbn [read_chunks]. rewrite update_events_cons.
  set (k := (if decide (chunk = update_event) then 1 else 0)%nat).
  case_decide as Hempty; [cbn [fst snd]; destruct g; lia |].
  unfold on_chunk. cbv zeta.
  assert ((if (if decide (chunk = update_event) then true else g) then 1 else 0)
          ≤ Z.of_nat k + (if g then 1 else 0)) as Hg1
    by (subst k; case_decide; destruct g; simpl; lia).
  destruct (if decide (chunk = update_event) then true else g).
  - case_decide as Hdata.
    + pose proof (process_update_total fuel (slice_from chunk 5) st) as Htotal.
      destruct (process_update fuel (slice_from chunk 5) st) as [st' o].
      cbn [fst snd] in Htotal.
      destruct o; cbn [fst snd];
        try (specialize (IH false st'); cbn [fst snd] in IH); lia.
    + specialize (IH true st). cbn [fst snd] in *. lia.
  - case_decide as Hdata; specialize (IH false st); cbn [fst snd] in *; lia.
Qed.

Lemma read_chunks_idle fuel chunks :
  ∀ st, Forall (λ chunk, chunk ≠ update_event) chunks →
    (read_chunks fuel chunks false st).1.2 = st.
Proof.
  induction chunks as [|chunk chunks IH]; intros st Hall; [done |].
  apply Forall_cons in Hall as [Hchunk Hall].
  cbn [read_chunks]. case_decide; [done |].
  unfold on_chunk. cbv zeta.
  rewrite (decide_False (P := chunk = update_event)) by done.
  case_decide; cbn [fst snd]; by apply IH.
Qed.

(** X11: during one connection at most as many posts are counted as update
    events were read, and none at all when no update event was read: the
    state is then the state before. *)
Theorem stream_counts_at_most_its_update_events fuel chunks st :
  total st ≤ total (server_stream fuel chunks st).1.2
  ≤ total st + Z.of_nat (update_events chunks) ∧
  (update_events chunks = 0%nat → (server_stream fuel chunks st).1.2 = st).
Proof.
  unfold server_stream. split.
  - pose proof (read_chunks_total fuel chunks false st). simpl in *. lia.
  - intros Hnone. apply read_chunks_idle.
    unfold update_events in Hnone. apply length_zero_iff_nil in Hnone.
    apply Forall_forall. intros chunk Hin ->.
    assert (update_event ∈ filter (λ chunk, chunk = update_event) chunks) as Hf
      by (by apply list_elem_of_filter).
    rewrite Hnone in Hf. by apply elem_of_nil in Hf.
Qed.

Lemma data_line_parts payload :
  slice (data_prefix ++ payload) 0 5 = data_prefix ∧
  slice_from (data_prefix ++ payload) 5 = payload.
Proof.
  assert (len (data_prefix ++ payload) = 5 + len payload) as Hlen
    by (unfold len; rewrite length_app; simpl; lia).
  pose proof (len_nonneg payload). split.
  - rewrite slice_inside by lia. done.
  - unfold slice_from. rewrite adjust_start_id, Z.min_r by lia. done.
Qed.

Lemma read_chunks_skips fuel mid :
  ∀ rest st,
    Forall (λ chunk, chunk ≠ [] ∧ slice chunk 0 5 ≠ data_prefix) mid →
    read_chunks fuel (mid ++ rest) true st = read_chunks fuel rest true st.
Proof.
  induction mid as [|chunk mid IH]; intros rest st Hmid; [done |].
  apply Forall_cons in Hmid as [[Hne Hnd] Hmid].
  cbn [app read_chunks]. rewrite decide_False.
  2:{ destruct chunk; [done |]. unfold len. simpl. lia. }
  unfold on_chunk. rewrite (decide_False (P := slice chunk 0 5 = data_prefix)) by done.
  case_decide; by apply IH.
Qed.

Lemma read_chunks_event_then_data fuel mid payload rest g st :
  Forall (λ chunk, chunk ≠ [] ∧ slice chunk 0 5 ≠ data_prefix) mid →
  read_chunks fuel (update_event :: mid ++ (data_prefix ++ payload) :: rest) g st
  = match process_update fuel payload st with
    | (st', Diverges) => (true, st', Hung)
    | (st', _) => read_chunks fuel rest false st'
    end.
Proof.
  intros Hmid. cbn [read_chunks].
  rewrite (decide_False (P := len update_event = 0)) by done.
  unfold on_chunk at 1. cbv zeta.
  rewrite (decide_True (P := update_event = update_event)) by done.
  rewrite (decide_False (P := slice update_event 0 5 = data_prefix)) by done.
  rewrite read_chunks_skips by done.
  destruct (data_line_parts payload) as [Hprefix Hpayload].
  cbn [read_chunks]. rewrite (decide_False (P := len (data_prefix ++ payload) = 0)).
  2:{ unfold len. rewrite length_app. simpl. lia. }
  unfold on_chunk. cbv zeta.
  rewrite (decide_False (P := data_prefix ++ payload = update_event)) by done.
  rewrite (decide_True (P := slice (data_prefix ++ payload) 0 5 = data_prefix)) by done.
  rewrite Hpayload.
  by destruct (process_update fuel payload st) as [st' []].
Qed.

(** X12: an update event, then any chunks that are not empty and do not
    start with the data prefix, then a data chunk: the payload of the data
    chunk is handed to [process_update], once, and the flag is cleared for
    the chunks that follow. *)
Theorem update_event_hands_over_next_data_chunk fuel mid payload rest g st :
  Forall (λ chunk, chunk ≠ [] ∧ slice chunk 0 5 ≠ data_prefix) mid →
  read_chunks fuel (update_event :: mid ++ (data_prefix ++ payload) :: rest) g st
  = match process_update fuel payload st with
    | (st', Diverges) => (true, st', Hung)
    | (st', _) => read_chunks fuel rest false st'
    end.
Proof. apply read_chunks_event_then_data. Qed.
End StreamProperties.

Lemma stream_counts_at_most_its_update_events_witness :
  let chunks := [b "event: delete" ++ [x0a]; data_prefix ++ tagged_b] in
  let st := initial (H := ascii_text) three_agents in
  total st ≤ total (server_stream 5 chunks st).1.2
  ≤ total st + Z.of_nat (update_events chunks) ∧
  (update_events chunks = 0%nat → (server_stream 5 chunks st).1.2 = st).
Proof.
  apply (stream_counts_at_most_its_update_events (H := ascii_text)).
Defined.

Lemma update_event_hands_over_next_data_chunk_witness :
  read_chunks (H := ascii_text) 5
    (update_event :: [b ":thump" ++ [x0a]] ++ (data_prefix ++ tagged_b) :: [b "data:{}"])
    false (initial three_agents)
  = match process_update 5 tagged_b (initial three_agents) with
    | (st', Diverges) => (true, st', Hung)
    | (st', _) => read_chunks 5 [b "data:{}"] false st'
    end.
Proof.
  apply (update_event_hands_over_next_data_chunk (H := ascii_text)).
  repeat constructor; discriminate.
Defined.

(** ** The statistics report *)

Lemma byte_to_N_inj (c d : byte) : Byte.to_N c = Byte.to_N d → c = d.
Proof.
  intros Heq. apply (f_equal Byte.of_N) in Heq.
  rewrite !Byte.of_to_N in Heq. by injection Heq.
Qed.

Lemma bytes_leb_refl x : bytes_leb x x = true.
Proof.
  induction x as [|c x IH]; [done |]. simpl.
  by rewrite N.ltb_irrefl, N.eqb_refl.
Qed.

Lemma bytes_leb_total x : ∀ y, bytes_leb x y = true ∨ bytes_leb y x = true.
Proof.
  induction x as [|c x IH]; intros [|d y]; simpl; auto.
  destruct (N.ltb_spec (Byte.to_N c) (Byte.to_N d)); [by left |].
  destruct (N.ltb_spec (Byte.to_N d) (Byte.to_N c)); [by right |].
  assert (Byte.to_N c = Byte.to_N d) as Heq by lia.
  rewrite Heq, N.eqb_refl. apply IH.
Qed.

Lemma bytes_leb_antisym x : ∀ y, bytes_leb x y = true → bytes_leb y x = true → x = y.
Proof.
  induction x as [|c x IH]; intros [|d y]; simpl; try done.
  destruct (N.ltb_spec (Byte.to_N c) (Byte.to_N d));
    destruct (N.ltb_spec (Byte.to_N d) (Byte.to_N c)); try lia.
  - intros _. destruct (N.eqb_spec (Byte.to_N d) (Byte.to_N c)); [lia | done].
  - destruct (N.eqb_spec (Byte.to_N c) (Byte.to_N d)); [lia | done].
  - destruct (N.eqb_spec (Byte.to_N c) (Byte.to_N d)) as [Heq |]; [| done].
    rewrite Heq, N.eqb_refl. intros Hxy Hyx.
    apply byte_to_N_inj in Heq as ->. f_equal. by apply IH.
Qed.

Lemma bytes_leb_trans x : ∀ y z,
  bytes_leb x y = true → bytes_leb y z = true → bytes_leb x z = true.
Proof.
  induction x as [|c x IH]; intros [|d y] [|e z]; simpl; try done.
  destruct (N.ltb_spec (Byte.to_N c) (Byte.to_N d)) as [Hcd | Hcd];
    destruct (N.ltb_spec (Byte.to_N d) (Byte.to_N e)) as [Hde | Hde];
    destruct (N.ltb_spec (Byte.to_N c) (Byte.to_N e)) as [Hce | Hce];
    try done; try lia.
  - destruct (N.eqb_spec (Byte.to_N d) (Byte.to_N e)); [lia | done].
  - destruct (N.eqb_spec (Byte.to_N c) (Byte.to_N d)); [lia | done].
  - destruct (N.eqb_spec (Byte.to_N c) (Byte.to_N d)) as [Hcd' |]; [| done].
    destruct (N.eqb_spec (Byte.to_N d) (Byte.to_N e)) as [Hde' |]; [| done].
    destruct (N.eqb_spec (Byte.to_N c) (Byte.to_N e)); [| lia]. apply IH.
Qed.

#[global] Instance tuple_le_total : Total tuple_le.
Proof.
  intros [c1 s1] [c2 s2]. unfold tuple_le; simpl.
  destruct (Z.lt_trichotomy c1 c2) as [? | [-> | ?]]; [by left; left | | by right; left].
  destruct (bytes_leb_total s1 s2); [left | right]; by right.
Qed.

#[global] Instance tuple_le_trans : Transitive tuple_le.
Proof.
  intros [c1 s1] [c2 s2] [c3 s3]. unfold tuple_le; simpl.
  intros [? | [-> ?]] [? | [-> ?]]; [left; lia | by left | by left |].
  right. split; [done |]. by eapply bytes_leb_trans.
Qed.

#[global] Instance tuple_le_antisym : AntiSymm (=) tuple_le.
Proof.
  intros [c1 s1] [c2 s2]. unfold tuple_le; simpl.
  intros [? | [-> ?]] [? | [? ?]]; try lia.
  f_equal. by apply bytes_leb_antisym.
Qed.

#[global] Instance tuple_ge_trans : Transitive (flip tuple_le).
Proof. intros p q r Hpq Hqr. unfold flip in *. by etrans. Qed.

Lemma server_list_Permutation (m : gmap bytes Z) :
  server_list m ≡ₚ (λ kv, (kv.2, kv.1)) <$> map_to_list m.
Proof. unfold server_list. by rewrite reverse_Permutation, merge_sort_Permutation. Qed.

Lemma elem_of_server_list (m : gmap bytes Z) c s :
  (c, s) ∈ server_list m ↔ m !! s = Some c.
Proof.
  rewrite server_list_Permutation, list_elem_of_fmap. split.
  - intros ([s' c'] & [= -> ->] & Hin). by apply elem_of_map_to_list.
  - intros Hin. exists (s, c). split; [done |]. by apply elem_of_map_to_list.
Qed.

Lemma server_list_sorted (m : gmap bytes Z) :
  StronglySorted (flip tuple_le) (server_list m).
Proof.
  apply Sorted_StronglySorted; [apply _ |].
  apply Sorted_reverse, Sorted_merge_sort. apply _.
Qed.

Lemma server_list_NoDup (m : gmap bytes Z) : NoDup (server_list m).*2.
Proof.
  rewrite server_list_Permutation, <- list_fmap_compose.
  apply NoDup_fst_map_to_list.
Qed.

Lemma StronglySorted_lookup_lt {A} (R : relation A) l :
  StronglySorted R l →
  ∀ (i j : nat) p q, (i < j)%nat → l !! i = Some p → l !! j = Some q → R p q.
Proof.
  induction 1 as [|x l Hl IH Hx]; intros i j p q Hij Hi Hj; [done |].
  destruct j as [|j]; [lia |]. destruct i as [|i]; simpl in *.
  - injection Hi as <-. by eapply Forall_lookup_1.
  - apply (IH i j); [lia | done | done].
Qed.

(** X13: the rows of the report are ten of the entries of [servers], or all
    of them when there are fewer, each server once, in descending order of
    the tuples [(count, server)]; no entry left out has a higher count than
    a row. *)
Theorem report_shows_top_ten (m : gmap bytes Z) :
  length (report m) = Nat.min 10 (size m) ∧
  (∀ c s, (c, s) ∈ report m → m !! s = Some c) ∧
  NoDup (report m).*2 ∧
  StronglySorted (flip tuple_le) (report m) ∧
  (∀ i j p q, (i < j)%nat → report m !! i = Some p → report m !! j = Some q → q.1 ≤ p.1) ∧
  (∀ c s p, m !! s = Some c → (c, s) ∉ report m → p ∈ report m → c ≤ p.1).
Proof.
  pose proof (server_list_sorted m) as Hsorted.
  rewrite <- (take_drop 10 (server_list m)) in Hsorted. fold (report m) in Hsorted.
  apply StronglySorted_app in Hsorted as (Hcross & Hrows & _).
  assert (∀ p q : Z * bytes, flip tuple_le p q → q.1 ≤ p.1) as Hcount.
  { intros p q [? | [? _]]; lia. }
  repeat split.
  - unfold report. rewrite length_take.
    rewrite (Permutation_length (server_list_Permutation m)), length_fmap, length_map_to_list.
    done.
  - intros c s Hin. apply elem_of_server_list. unfold report in Hin.
    by apply subseteq_take in Hin.
  - unfold report. rewrite fmap_take. eapply sublist_NoDup; [apply server_list_NoDup |].
    apply sublist_take.
  - done.
  - intros i j p q Hij Hi Hj. apply Hcount.
    by apply (StronglySorted_lookup_lt _ _ Hrows i j).
  - intros c s p Hentry Hout Hp. apply (Hcount p (c, s)). apply Hcross; [done |].
    apply elem_of_server_list in Hentry.
    rewrite <- (take_drop 10 (server_list m)) in Hentry.
    apply elem_of_app in Hentry as [Hin | Hin]; [by destruct Hout | done].
Qed.

(** ** Rendered tag lists *)

Lemma occurs_app_shift (front rest sub : bytes) i :
  0 ≤ i → occurs (front ++ rest) sub (len front + i) ↔ occurs rest sub i.
Proof.
  intros Hi. unfold occurs, len.
  replace (Z.to_nat (Z.of_nat (length front) + i)) with (length front + Z.to_nat i)%nat by lia.
  by rewrite drop_app_add.
Qed.

(** The first index of the byte [x] at or after the end of [front], when
    only bytes of [skipped], which does not hold [x], stand before it. *)
Lemma find_byte_after (front skipped rest : bytes) x end_ :
  x ∉ skipped →
  len front + len skipped
    < match end_ with
      | None => len (front ++ skipped ++ x :: rest)
      | Some e => adjust_end (len (front ++ skipped ++ x :: rest)) e
      end →
  find (front ++ skipped ++ x :: rest) [x] (len front) end_ = len front + len skipped.
Proof.
  intros Hx Hend. set (data := front ++ skipped ++ x :: rest) in *.
  pose proof (len_nonneg front). pose proof (len_nonneg skipped).
  assert (occurs data [x] (len front + len skipped)) as Hocc.
  { apply occurs_app_shift; [lia |].
    replace (len skipped) with (len skipped + 0) by lia.
    apply occurs_app_shift; [lia |]. apply occurs_byte; [lia | done]. }
  assert (∀ i, len front ≤ i < len front + len skipped → ¬ occurs data [x] i) as Hnone.
  { intros i Hi Ho. replace i with (len front + (i - len front)) in Ho by lia.
    apply occurs_app_shift in Ho; [| lia].
    apply occurs_byte in Ho; [| lia].
    rewrite lookup_app_l in Ho by (unfold len in *; lia).
    apply Hx. by apply list_elem_of_lookup_2 in Ho. }
  pose proof (find_ok data [x] (len front) end_) as Hok.
  rewrite adjust_start_id in Hok by lia.
  assert (len [x] = 1) as Hone by done.
  destruct Hok as [Hno | r Hs Hr He Ho Hm].
  - destruct (Hno (len front + len skipped)); [rewrite Hone; destruct end_; lia | done].
  - destruct (Z.lt_trichotomy r (len front + len skipped)) as [Hlt | [-> | Hgt]]; [| done |].
    + destruct (Hnone r); [lia | done].
    + destruct (Hm (len front + len skipped)); [lia | done].
Qed.

(** No index of [x] in a window that ends within [skipped]. *)
Lemma find_byte_none (front skipped rest : bytes) x e :
  x ∉ skipped → 0 ≤ e ≤ len front + len skipped →
  find (front ++ skipped ++ rest) [x] (len front) (Some e) = -1.
Proof.
  intros Hx He. set (data := front ++ skipped ++ rest) in *.
  pose proof (len_nonneg front). pose proof (len_nonneg skipped).
  assert (len data = len front + len skipped + len rest) as Hlen
    by (unfold data, len; rewrite !length_app; lia).
  pose proof (len_nonneg rest).
  assert (adjust_end (len data) e = e) as Hadj
    by (unfold adjust_end; repeat case_match; lia).
  destruct (find_in_window data [x] (len front) e) as [[Hr _] | (Hr & Ho & _)];
    [lia | done |].
  assert (len [x] = 1) as Hone by done. rewrite Hadj, Hone in Hr.
  set (r := find data [x] (len front) (Some e)) in *.
  replace r with (len front + (r - len front)) in Ho by lia.
  apply occurs_app_shift in Ho; [| lia]. apply occurs_byte in Ho; [| lia].
  rewrite lookup_app_l in Ho by (unfold len in *; lia).
  destruct Hx. by apply list_elem_of_lookup_2 in Ho.
Qed.

Lemma first_occ_rendered pre field rest :
  label_free pre field → first_occ (pre ++ field ++ rest) field 0 (len pre).
Proof.
  intros Hfree. pose proof (len_nonneg pre). pose proof (len_nonneg rest).
  repeat split; [lia | | apply occurs_app_here |].
  - unfold len. rewrite !length_app. lia.
  - intros i Hi Ho. apply (Hfree i); [lia |].
    rewrite app_assoc in Ho. apply occurs_app_inv in Ho; [done | lia |].
    unfold len in *. rewrite length_app. lia.
Qed.

Lemma lacks_app x (l k : bytes) : x ∉ l → x ∉ k → x ∉ l ++ k.
Proof. intros Hl Hk [? | ?]%elem_of_app; auto. Qed.

Ltac byte_not_in :=
  solve [ done
        | let Hin := fresh in
          intros Hin; vm_compute in Hin;
          repeat (apply elem_of_cons in Hin as [Hin | Hin]; [discriminate |]);
          by apply elem_of_nil in Hin ].

Lemma clean_render es : Forall entry_wf es → rbracket ∉ render_entries es.
Proof.
  induction 1 as [|e es (Hg & Hn & _ & Hx) _ IH]; simpl; [by intros ?%elem_of_nil |].
  destruct Hg as (_ & _ & Hg), Hn as (_ & _ & Hn), Hx as (_ & _ & Hx).
  change (rbracket ∉ gap e ++ [lbrace] ++ name_label ++ [dquote] ++ tag_name e
            ++ [dquote] ++ extra e ++ [rbrace] ++ render_entries es).
  repeat (apply lacks_app; [byte_not_in |]). done.
Qed.

Lemma find_byte_after_eq data (front skipped rest : bytes) x p end_ :
  data = front ++ skipped ++ x :: rest → p = len front →
  x ∉ skipped →
  p + len skipped < match end_ with
                    | None => len data
                    | Some e => adjust_end (len data) e
                    end →
  find data [x] p end_ = p + len skipped.
Proof. intros -> -> Hx Hend. by apply find_byte_after. Qed.

Lemma find_byte_none_eq data (front skipped rest : bytes) x p e :
  data = front ++ skipped ++ rest → p = len front →
  x ∉ skipped → 0 ≤ e ≤ p + len skipped →
  find data [x] p (Some e) = -1.
Proof. intros -> -> Hx He. by apply find_byte_none. Qed.

Lemma slice_middle data (front middle rest : bytes) lo hi :
  data = front ++ middle ++ rest → lo = len front → hi = len front + len middle →
  slice data lo hi = middle.
Proof.
  intros -> -> ->. pose proof (len_nonneg front). pose proof (len_nonneg middle).
  rewrite slice_inside; [| lia | unfold len; rewrite !length_app; lia].
  unfold len. rewrite Nat2Z.id, drop_app_length.
  replace (Z.to_nat (_ - _)) with (length middle) by lia.
  apply take_app_length.
Qed.

Lemma getlist_loop_rendered es :
  ∀ front last_gap post items fuel,
    Forall entry_wf es → clean last_gap → (length es < fuel)%nat →
    getlist_loop fuel (front ++ render_entries es ++ last_gap ++ [rbracket] ++ post)
      (len front + len (render_entries es ++ last_gap)) (len front) items
    = Some (items ++ (Some ∘ tag_name <$> es)).
Proof.
  induction es as [|e es IH]; intros front last_gap post items fuel Hes Hlast Hfuel;
    (destruct fuel as [|fuel]; [simpl in Hfuel; lia |]).
  - cbn [getlist_loop render_entries app fmap list_fmap].
    change (b "{") with [lbrace].
    pose proof (len_nonneg front). pose proof (len_nonneg last_gap).
    rewrite (find_byte_none_eq _ front last_gap ([rbracket] ++ post));
      [| done | done | apply Hlast | lia].
    rewrite decide_True by done. by rewrite app_nil_r.
  - apply Forall_cons in Hes as [(Hg & Hn & Hq & Hx) Hes].
    set (content := name_label ++ [dquote] ++ tag_name e ++ [dquote] ++ extra e).
    set (tail := render_entries es ++ last_gap ++ [rbracket] ++ post).
    set (data := front ++ render_entries (e :: es) ++ last_gap ++ [rbracket] ++ post).
    assert (data = front ++ gap e ++ lbrace :: content ++ rbrace :: tail) as Hshape.
    { unfold data, content, tail. cbn [render_entries].
      change (b "{") with [lbrace]. change (b "}") with [rbrace].
      rewrite <- !app_assoc. reflexivity. }
    assert (len (render_entries (e :: es) ++ last_gap)
            = len (gap e) + 1 + len content + 1 + len (render_entries es ++ last_gap)) as Hlen.
    { unfold content, len. cbn [render_entries].
      change (b "{") with [lbrace]. change (b "}") with [rbrace].
      rewrite !length_app. cbn [length]. lia. }
    assert (len data = len front + len (render_entries (e :: es) ++ last_gap) + 1 + len post)
      as Hdata.
    { unfold data, len. rewrite !length_app. cbn [length]. lia. }
    pose proof (len_nonneg front). pose proof (len_nonneg (gap e)).
    pose proof (len_nonneg content). pose proof (len_nonneg post).
    pose proof (len_nonneg (render_entries es ++ last_gap)).
    set (E := len front + len (render_entries (e :: es) ++ last_gap)) in *.
    assert (adjust_end (len data) E = E) as Hadj
      by (unfold adjust_end; repeat case_match; lia).
    cbn [getlist_loop].
    change (b "{") with [lbrace]. change (b "}") with [rbrace].
    rewrite (find_byte_after_eq data front (gap e) (content ++ rbrace :: tail) lbrace);
      [| done | done | apply Hg | lia].
    rewrite decide_False by lia.
    rewrite (find_byte_after_eq data (front ++ gap e ++ [lbrace]) content tail rbrace).
    2:{ rewrite Hshape. by rewrite <- !app_assoc. }
    2:{ unfold len. rewrite !length_app. simpl. lia. }
    2:{ unfold content. destruct Hn as (_ & Hn & _), Hx as (_ & Hx & _).
        repeat (apply lacks_app; [byte_not_in |]). done. }
    2:{ lia. }
    rewrite (slice_middle data (front ++ gap e) (lbrace :: content) (rbrace :: tail)).
    2:{ rewrite Hshape. by rewrite <- !app_assoc. }
    2:{ unfold len. rewrite length_app. lia. }
    2:{ unfold len. rewrite length_app. cbn [length]. lia. }
    change (lbrace :: content)
      with ([lbrace] ++ name_label ++ [dquote] ++ tag_name e ++ [dquote] ++ extra e).
    rewrite getfield_rendered;
      [| by apply label_freeb_correct | done].
    cbn [fmap option_fmap option_map fst].
    set (front2 := front ++ gap e ++ lbrace :: content ++ [rbrace]).
    assert (data = front2 ++ render_entries es ++ last_gap ++ [rbracket] ++ post) as Hshape2.
    { rewrite Hshape. unfold front2, tail. rewrite <- !app_assoc. cbn [app].
      by rewrite <- !app_assoc. }
    assert (len front2 = len front + len (gap e) + 1 + len content + 1) as Hfront2.
    { unfold front2, len. rewrite !length_app. cbn [length]. rewrite !length_app.
      cbn [length]. lia. }
    replace (len front + len (gap e) + 1 + len content + 1) with (len front2) by lia.
    replace E with (len front2 + len (render_entries es ++ last_gap)) by lia.
    clearbody data. rewrite Hshape2.
    rewrite (IH front2 last_gap post) by (done || simpl in Hfuel; lia).
    by rewrite <- app_assoc.
Qed.

Lemma occurs_two_bytes (data : bytes) x y i :
  0 ≤ i → occurs data [x; y] i →
  data !! Z.to_nat i = Some x ∧ data !! Z.to_nat (i + 1) = Some y.
Proof.
  intros Hi [k Hk]%starts_with_prefix. split.
  - apply (f_equal (λ l, l !! 0%nat)) in Hk. rewrite lookup_drop in Hk.
    by rewrite Nat.add_0_r in Hk.
  - apply (f_equal (λ l, l !! 1%nat)) in Hk. rewrite lookup_drop in Hk.
    by replace (Z.to_nat (i + 1)) with (Z.to_nat i + 1)%nat by lia.
Qed.

Lemma render_entries_head e es rest (k : nat) c :
  entry_wf e → (k < 2)%nat →
  (render_entries (e :: es) ++ rest) !! k = Some c → c ≠ rbracket.
Proof.
  intros (Hg & _) Hk Hc. destruct Hg as (_ & _ & Hg).
  cbn [render_entries] in Hc. change (b "{") with [lbrace] in Hc.
  replace ((gap e ++ [lbrace] ++ name_label ++ [dquote] ++ tag_name e ++ [dquote]
              ++ extra e ++ b "}" ++ render_entries es) ++ rest)
    with ((gap e ++ [lbrace] ++ name_label) ++ [dquote] ++ tag_name e ++ [dquote]
              ++ extra e ++ b "}" ++ render_entries es ++ rest) in Hc
    by (by rewrite <- !app_assoc).
  rewrite lookup_app_l in Hc.
  2:{ rewrite !length_app. simpl. lia. }
  apply list_elem_of_lookup_2 in Hc. intros ->. revert Hc.
  repeat (apply lacks_app; [byte_not_in |]). byte_not_in.
Qed.

Lemma getlist_rendered fuel pre field es last_gap post :
  label_free pre field → Forall entry_wf es → clean last_gap →
  (length es < fuel)%nat →
  getlist fuel
    (pre ++ field ++ [lbracket] ++ render_entries es ++ last_gap ++ [rbracket] ++ post)
    field
  = Some (Some ∘ tag_name <$> es).
Proof.
  intros Hfree Hes Hlast Hfuel.
  set (body := render_entries es ++ last_gap ++ [rbracket] ++ post).
  set (data := pre ++ field ++ [lbracket] ++ body).
  pose proof (len_nonneg pre). pose proof (len_nonneg field).
  pose proof (len_nonneg body).
  assert (len data = len pre + len field + 1 + len body) as Hdata.
  { unfold data, len. rewrite !length_app. cbn [length]. lia. }
  unfold getlist.
  assert (find data field 0 None = len pre) as ->.
  { apply (find_first_iff data field 0 (len pre)), first_occ_rendered, Hfree. }
  rewrite decide_False by lia.
  set (p := len pre + len field).
  assert (∀ k : nat, data !! (Z.to_nat (p + 1) + k)%nat = body !! k) as Hbody.
  { intros k. unfold data. rewrite app_assoc, lookup_app_r; rewrite length_app.
    - replace (Z.to_nat (p + 1) + k - (length pre + length field))%nat with (S k)
        by (unfold p, len; lia).
      done.
    - unfold p, len. lia. }
  case_decide as Hmarker.
  { destruct es as [|e es]; [done |]. destruct Hmarker.
    apply Forall_cons in Hes as [He Hes].
    destruct (find_in_window data (b "[]") p (p + 3)) as [[Hr _] | (Hr & Ho & _)];
      [lia | done |].
    set (r := find data (b "[]") p (Some (p + 3))) in *.
    change (len (b "[]")) with 2 in Hr.
    assert (adjust_end (len data) (p + 3) ≤ p + 3)
      by (unfold adjust_end; repeat case_match; lia).
    apply (occurs_two_bytes data lbracket rbracket) in Ho as [_ Hclose]; [| lia].
    replace (Z.to_nat (r + 1)) with (Z.to_nat (p + 1) + Z.to_nat (r - p))%nat in Hclose by lia.
    rewrite Hbody in Hclose. unfold body in Hclose.
    by apply (render_entries_head e es) in Hclose; [| done | lia]. }
  rewrite (find_byte_after_eq data (pre ++ field) [] body lbracket);
    [| unfold data; by rewrite <- app_assoc | unfold p, len; rewrite length_app; lia
     | by intros ?%elem_of_nil | change (len []) with 0; lia ].
  change (len (A := byte) []) with 0. rewrite Z.add_0_r.
  change (b "]") with [rbracket].
  rewrite (find_byte_after_eq data (pre ++ field ++ [lbracket])
             (render_entries es ++ last_gap) post rbracket).
  2:{ unfold data, body. by rewrite <- !app_assoc. }
  2:{ unfold p, len. rewrite !length_app. cbn [length]. lia. }
  2:{ apply lacks_app; [by apply clean_render | apply Hlast]. }
  2:{ rewrite Hdata. unfold p, body, len. rewrite !length_app. cbn [length]. lia. }
  replace data with ((pre ++ field ++ [lbracket]) ++ render_entries es ++ last_gap
                       ++ [rbracket] ++ post)
    by (unfold data, body; by rewrite <- !app_assoc).
  replace (p + 1) with (len (pre ++ field ++ [lbracket]))
    by (unfold p, len; rewrite !length_app; cbn [length]; lia).
  by rewrite getlist_loop_rendered by (done || lia).
Qed.

Lemma report_shows_top_ten_witness :
  let m : gmap bytes Z := list_to_map [(b "a.example", 2); (b "b.example", 5)] in
  length (report m) = Nat.min 10 (size m) ∧
  (∀ c s, (c, s) ∈ report m → m !! s = Some c) ∧
  NoDup (report m).*2 ∧
  StronglySorted (flip tuple_le) (report m) ∧
  (∀ i j p q, (i < j)%nat → report m !! i = Some p → report m !! j = Some q → q.1 ≤ p.1) ∧
  (∀ c s p, m !! s = Some c → (c, s) ∉ report m → p ∈ report m → c ≤ p.1).
Proof. intros m. apply (report_shows_top_ten m). Defined.

(** X14: a buffer in which the label first stands after [pre] and is
    followed by a bracketed list of entries, each with its name first and
    with no brace or closing bracket inside: [getlist] returns the names of
    the entries, in their order, within one round per entry plus one. *)
Theorem getlist_reads_rendered_entries pre field es last_gap post :
  label_free pre field → Forall entry_wf es → clean last_gap →
  getlist (S (length es))
    (pre ++ field ++ [lbracket] ++ render_entries es ++ last_gap ++ [rbracket] ++ post)
    field
  = Some (Some ∘ tag_name <$> es).
Proof. intros. apply getlist_rendered; (done || lia). Qed.

Lemma cleanb_correct l : cleanb l = true → clean l.
Proof.
  unfold cleanb, clean. intros [[? ?]%andb_prop ?]%andb_prop.
  repeat split; by apply lacks_correct.
Qed.

Lemma entry_wfb_correct e : entry_wfb e = true → entry_wf e.
Proof.
  unfold entry_wfb, entry_wf. intros [[[? ?]%andb_prop ?]%andb_prop ?]%andb_prop.
  repeat split; (by apply cleanb_correct) || (by apply lacks_correct) ||
                  (by apply cleanb_correct; assumption).
Qed.

Lemma getlist_reads_rendered_entries_witness :
  getlist 3 (b "{'uri':'https://a.b/1','tags':[{'name':'Foo','url':'https://a.b/tags/foo'},{'name':'bar'}]}")
    tags_label
  = Some [Some (b "Foo"); Some (b "bar")].
Proof.
  apply (getlist_reads_rendered_entries (b "{'uri':'https://a.b/1',") tags_label
           [TagEntry [] (b "Foo") (b ",'url':'https://a.b/tags/foo'");
            TagEntry (b ",") (b "bar") []] [] (b "}")).
  - by apply label_freeb_correct.
  - repeat constructor; by apply entry_wfb_correct.
  - by apply cleanb_correct.
Defined.

(** ** From the stream to the queues *)

Section EndToEnd.
Context `{PyStr}.

Lemma decode_tags_names es names :
  Forall2 (λ e s, decode (tag_name e) = Some s) es names →
  decode_tags (Some ∘ tag_name <$> es) = inl (lower <$> names).
Proof.
  induction 1 as [|e s es names Hs _ IH]; [done |].
  rewrite !fmap_cons. cbn [decode_tags compose]. by rewrite Hs, IH.
Qed.

(** X15: an update event followed by a data chunk whose payload holds a
    quoted [uri] value and a well-formed, non-empty list of tags after it.
    In a state that satisfies the cache invariant, where the id is not
    cached and every agent holds a tag set, the worker hands the payload to
    [process_update], which returns; the id is appended once to the queue of
    each agent that follows one of the lower-cased tag names, and to no
    other queue. *)
Theorem well_formed_update_reaches_followers fuel pre url mid es last_gap post names st :
  let data := pre ++ uri_label ++ [dquote] ++ url ++ [dquote] ++ mid ++ tags_label
                ++ [lbracket] ++ render_entries es ++ last_gap ++ [rbracket] ++ post in
  label_free pre uri_label → dquote ∉ url →
  label_free (pre ++ uri_label ++ [dquote] ++ url ++ [dquote] ++ mid) tags_label →
  Forall entry_wf es → clean last_gap → es ≠ [] →
  Forall2 (λ e s, decode (tag_name e) = Some s) es names →
  is_Some (decode url) →
  cache_inv st → posts st !! url = None →
  Forall (λ u, is_Some (UserConnection.tags u)) (users st) →
  (length es < fuel)%nat →
  server_stream fuel [update_event; data_prefix ++ data] st
    = (false, (process_update fuel data st).1, Reading) ∧
  (process_update fuel data st).2 = Returned ∧
  Forall2 (λ u u',
      UserConnection.server u' = UserConnection.server u ∧
      ∃ own, UserConnection.tags u = Some own ∧ UserConnection.tags u' = Some own ∧
        ((own ∩ list_to_set (lower <$> names) ≠ ∅ ∧
          UserConnection.posts u' = UserConnection.posts u ++ [url]) ∨
         (own ∩ list_to_set (lower <$> names) = ∅ ∧
          UserConnection.posts u' = UserConnection.posts u)))
    (users st) (users (process_update fuel data st).1).
Proof.
  intros data Hpre Hurl Htags Hes Hlast Hne Hnames Hdec Hinv Hnew Hus Hfuel.
  assert (getfield data uri_label 0
          = Some (url, len pre + len uri_label + len url + 2)) as Hget.
  { unfold data. by apply getfield_rendered. }
  assert (getlist fuel data tags_label = Some (Some ∘ tag_name <$> es)) as Hlist.
  { unfold data.
    replace (pre ++ uri_label ++ [dquote] ++ url ++ [dquote] ++ mid ++ tags_label
               ++ [lbracket] ++ render_entries es ++ last_gap ++ [rbracket] ++ post)
      with ((pre ++ uri_label ++ [dquote] ++ url ++ [dquote] ++ mid) ++ tags_label
               ++ [lbracket] ++ render_entries es ++ last_gap ++ [rbracket] ++ post)
      by (by rewrite <- !app_assoc).
    by apply getlist_rendered. }
  destruct (post_is_queued_for_matching_agents fuel data st url _ _ (lower <$> names)
              Hinv Hget Hnew Hlist (decode_tags_names es names Hnames))
    as [Hret Hqueues]; [| done | done |].
  { destruct Hnames; [done | by rewrite fmap_cons]. }
  split; [| done].
  unfold server_stream.
  pose proof (read_chunks_event_then_data fuel [] data [] false st
                (Forall_nil_2 _)) as Hstream.
  cbn [app] in Hstream. rewrite Hstream.
  destruct (process_update fuel data st) as [st' o]. simpl in Hret. by rewrite Hret.
Qed.
End EndToEnd.

Lemma well_formed_update_reaches_followers_witness :
  let data := b "{'id':'7'," ++ uri_label ++ [dquote] ++ b "https://a.b/1" ++ [dquote]
                ++ b "," ++ tags_label ++ [lbracket]
                ++ render_entries [TagEntry [] (b "B") (b ",'url':'https://a.b/tags/b'")]
                ++ [] ++ [rbracket] ++ b "}" ++ [x0a] in
  let st := initial (H := ascii_text) three_agents in
  server_stream 2 [update_event; data_prefix ++ data] st
    = (false, (process_update 2 data st).1, Reading) ∧
  (process_update 2 data st).2 = Returned ∧
  Forall2 (λ u u',
      UserConnection.server u' = UserConnection.server u ∧
      ∃ own, UserConnection.tags u = Some own ∧ UserConnection.tags u' = Some own ∧
        ((own ∩ list_to_set [b "b"] ≠ ∅ ∧
          UserConnection.posts u' = UserConnection.posts u ++ [b "https://a.b/1"]) ∨
         (own ∩ list_to_set [b "b"] = ∅ ∧
          UserConnection.posts u' = UserConnection.posts u)))
    (users st) (users (process_update 2 data st).1).
Proof.
  apply (well_formed_update_reaches_followers (H := ascii_text) 2 (b "{'id':'7',")
           (b "https://a.b/1") (b ",")
           [TagEntry [] (b "B") (b ",'url':'https://a.b/tags/b'")] [] (b "}" ++ [x0a])
           [b "B"] (initial three_agents)).
  - by apply label_freeb_correct.
  - by apply lacks_correct.
  - by apply label_freeb_correct.
  - repeat constructor; by apply entry_wfb_correct.
  - by apply cleanb_correct.
  - discriminate.
  - by repeat constructor.
  - by eexists.
  - apply cache_inv_initial.
  - reflexivity.
  - repeat constructor; by eexists.
  - simpl. lia.
Defined.

(** ** The report and the state *)

(** X16: the rows of the report do not depend on the order in which the
    servers were first seen: sorting any listing of the items of [servers]
    gives the same rows. *)
Theorem report_ignores_insertion_order (items : list (bytes * Z)) :
  NoDup items.*1 →
  take 10 (reverse (merge_sort tuple_le ((λ kv, (kv.2, kv.1)) <$> items)))
  = report (list_to_map items).
Proof.
  intros Hnd. unfold report, server_list. do 2 f_equal.
  apply (Sorted_unique tuple_le); [apply Sorted_merge_sort, _ .. |].
  rewrite !merge_sort_Permutation. apply fmap_Permutation.
  symmetry. by apply map_to_list_to_map.
Qed.

Lemma report_ignores_insertion_order_witness :
  take 10 (reverse (merge_sort tuple_le
     ((λ kv, (kv.2, kv.1)) <$> [(b "a.example", 2); (b "b.example", 5)])))
  = report (list_to_map [(b "a.example", 2); (b "b.example", 5)]).
Proof.
  apply report_ignores_insertion_order.
  apply NoDup_cons. split; [| apply NoDup_singleton].
  intros Hin%list_elem_of_singleton. discriminate Hin.
Defined.

Section ReportEffects.
Context `{PyStr}.

Lemma print_rows_ok rows :
  Forall (λ row, is_Some (decode row.2)) rows →
  ∃ printed,
    print_rows rows = (printed, None) ∧
    Forall2 (λ row line, decode row.2 = Some line.1 ∧ line.2 = row.1) rows printed.
Proof.
  induction 1 as [|[c s] rows [t Ht] _ (printed & Hp & Hall)]; simpl.
  - by exists [].
  - simpl in Ht. rewrite Ht, Hp. exists ((t, c) :: printed). split; [done |].
    by constructor.
Qed.

Lemma print_rows_fails rows :
  Exists (λ row, decode row.2 = None) rows →
  (print_rows rows).2 = Some UnicodeDecodeError.
Proof.
  induction rows as [|[c s] rows IH]; intros Hex; [by apply Exists_nil in Hex |].
  simpl. destruct (decode s) as [t |] eqn:Ht; [| done].
  apply Exists_cons in Hex as [Hbad | Hex]; [simpl in Hbad; congruence |].
  specialize (IH Hex). by destruct (print_rows rows).
Qed.

(** X17: when the names of the servers of the report decode, [top_servers]
    prints the post count and one line per row, empties [servers] and sets
    [post_count] to zero, and leaves [total], the cache and the agents as
    they are; when one of the names does not decode, it raises and resets
    nothing. *)
Theorem top_servers_resets_unless_it_raises st :
  (Forall (λ row, is_Some (decode row.2)) (report (servers st)) →
   ∃ printed,
     top_servers st
     = ({| post_count := 0; servers := ∅; total := total st; posts := posts st;
           posts_order := posts_order st; users := users st |},
        (post_count st, printed), None) ∧
     Forall2 (λ row line, decode row.2 = Some line.1 ∧ line.2 = row.1)
       (report (servers st)) printed) ∧
  (Exists (λ row, decode row.2 = None) (report (servers st)) →
   (top_servers st).1.1 = st ∧ (top_servers st).2 = Some UnicodeDecodeError).
Proof.
  split.
  - intros (printed & Hp & Hall)%print_rows_ok. exists printed. split; [| done].
    unfold top_servers. fold (report (servers st)). by rewrite Hp.
  - intros Hbad%print_rows_fails. unfold top_servers. fold (report (servers st)).
    destruct (print_rows (report (servers st))) as [printed r]. simpl in Hbad.
    by rewrite Hbad.
Qed.
End ReportEffects.

Lemma top_servers_resets_unless_it_raises_witness :
  let st := (process_update (H := ascii_text) 5 tagged_b (initial three_agents)).1 in
  ∃ printed,
    top_servers st
    = ({| post_count := 0; servers := ∅; total := total st; posts := posts st;
          posts_order := posts_order st; users := users st |},
       (post_count st, printed), None) ∧
    Forall2 (λ row line, decode row.2 = Some line.1 ∧ line.2 = row.1)
      (report (servers st)) printed.
Proof.
  intros st.
  apply (proj1 (top_servers_resets_unless_it_raises (H := ascii_text) st)).
  replace (report (servers st)) with [(1, b "a.b")] by (vm_compute; reflexivity).
  repeat constructor. by eexists.
Defined.
